(** * morpher: boundary tracing, resampling, interpolation and rasterisation

    A shallow embedding of [morpher.py].

    - Python integers are [Z]; Python and numpy floats are IEEE-754 binary64
      values, [spec_float] with precision 53 and maximal exponent 1024 and
      the operations of the standard library's reference semantics.
    - A numpy array of shape (height, width, 4) is the list of its rows; a
      Python list is a list, indexed as Python does (negative indices count
      from the end, an index out of range raises).
    - Code that can raise or loop for ever runs in the [outcome] monad: a
      result, an exception, or fuel exhausted.
    - The two contours that [main] decimates in place are kept in a store,
      and the names [a] and [b] are references into it.
    - A Pillow image is its size and its pixels, and [putpixel] stores a
      colour with each channel clamped to 0..255; the line drawing of
      [ImageDraw] is a parameter, and [np.linspace] follows its
      documentation.  The debug window ([TEST_LINE] is [False]), the text
      written to the terminal and the encoding of the files are left out.
    - The command line is a list of strings; [int] and [float] on a string,
      the tests of [os.path] and [os.makedirs] are parameters. *)

From Stdlib Require Import ZArith List Bool Lia.
From Stdlib Require Import Floats.SpecFloat.
From Stdlib Require DecimalString.
From stdpp Require Import base list strings.

Local Open Scope Z_scope.

(** ** Exceptions and fuel *)

Inductive exn :=
  | IndexError
  | ValueError
  | OverflowError
  | OSError
  | SystemExit (code : Z).

Inductive outcome (A : Type) :=
  | Done (a : A)
  | Raised (e : exn)
  | OutOfFuel.
Arguments Done {A} a.
Arguments Raised {A} e.
Arguments OutOfFuel {A}.

Definition outcome_bind {A B} (f : A -> outcome B) (m : outcome A) : outcome B :=
  match m with
  | Done a => f a
  | Raised e => Raised e
  | OutOfFuel => OutOfFuel
  end.

#[global] Instance outcome_ret : MRet outcome := fun _ a => Done a.
#[global] Instance outcome_mbind : MBind outcome := fun _ _ f m => outcome_bind f m.

Definition of_option {A} (e : exn) (o : option A) : outcome A :=
  match o with
  | Some a => Done a
  | None => Raised e
  end.

(** ** Python sequences *)

Definition point : Type := Z * Z.

Definition point_eqb (p q : point) : bool :=
  (p.1 =? q.1) && (p.2 =? q.2).

(** [x in l] for a list of points. *)
Definition point_in (p : point) (l : list point) : bool :=
  existsb (point_eqb p) l.

Definition len {A} (l : list A) : Z := Z.of_nat (length l).

(** [range(n)]: empty when [n <= 0]. *)
Definition range (n : Z) : list Z :=
  map Z.of_nat (seq 0 (Z.to_nat n)).

(** [l[i]]: a negative index counts from the end, an index outside
    [-len(l) <= i < len(l)] raises [IndexError]. *)
Definition py_index {A} (l : list A) (i : Z) : outcome A :=
  if 0 <=? i then of_option IndexError (l !! Z.to_nat i)
  else if - len l <=? i then of_option IndexError (l !! Z.to_nat (len l + i))
  else Raised IndexError.

(** [del l[i]], with the same index rule. *)
Definition py_del {A} (l : list A) (i : Z) : outcome (list A) :=
  if 0 <=? i then
    if i <? len l then Done (delete (Z.to_nat i) l) else Raised IndexError
  else if - len l <=? i then Done (delete (Z.to_nat (len l + i)) l)
  else Raised IndexError.

(** [l.pop(0)]: the list that is left. *)
Definition pop0 {A} (l : list A) : outcome (list A) :=
  match l with
  | [] => Raised IndexError
  | _ :: l' => Done l'
  end.

(** ** Python floats: binary64 *)

Definition prec : Z := 53.
Definition emax : Z := 1024.

Abbreviation float := spec_float.

Definition fadd : float -> float -> float := SFadd prec emax.
Definition fsub : float -> float -> float := SFsub prec emax.
Definition fmul : float -> float -> float := SFmul prec emax.
Definition fdiv : float -> float -> float := SFdiv prec emax.

(** [float(z)]: the nearest binary64 value, ties to even.  (Python raises
    [OverflowError] from 2^1024 on, where this gives an infinity; no length
    or coordinate of an image comes near.) *)
Definition float_of_int (z : Z) : float := binary_normalize prec emax z 0 false.

Definition f0 : float := S754_zero false.
Definition f1 : float := float_of_int 1.
Definition f1000 : float := float_of_int 1000.

(** [int(f)]: truncation toward zero; [ValueError] on a NaN and
    [OverflowError] on an infinity. *)
Definition int_of_float (f : float) : outcome Z :=
  match f with
  | S754_zero _ => Done 0
  | S754_finite s m e => Done (cond_Zopp s (Z.shiftl (Zpos m) e))
  | S754_nan => Raised ValueError
  | S754_infinity _ => Raised OverflowError
  end.

(** [f < n] for a float [f] and an int [n]: Python compares the two exact
    values, without rounding [n] to a float. *)
Definition float_lt_int (f : float) (n : Z) : bool :=
  match f with
  | S754_nan => false
  | S754_infinity s => s
  | S754_zero _ => 0 <? n
  | S754_finite s m e =>
      if 0 <=? e then cond_Zopp s (Zpos m * 2 ^ e) <? n
      else cond_Zopp s (Zpos m) <? n * 2 ^ (- e)
  end.

Definition lerp (a b t : float) : float :=
  fadd (fmul (fsub f1 t) a) (fmul t b).

(** ** Pixels and numpy arrays *)

Record rgba := RGBA { red : Z; green : Z; blue : Z; alpha : Z }.

Definition rgba_eqb (p q : rgba) : bool :=
  (red p =? red q) && (green p =? green q) && (blue p =? blue q) && (alpha p =? alpha q).

Definition BLANK : rgba := RGBA 0 0 0 0.
Definition WHITE : rgba := RGBA 255 255 255 255.

(** An array of shape (height, width, 4): its rows, each a list of pixels. *)
Definition ndarray : Type := list (list rgba).

(** [np.zeros((h, w, 4), dtype=np.uint8)] *)
Definition np_zeros (h w : nat) : ndarray := replicate h (replicate w BLANK).

(** [np.hstack((a, b, c))]: the rows of the three arrays side by side. *)
Definition np_hstack (a b c : ndarray) : ndarray :=
  zip_with app a (zip_with app b c).

(** [np.vstack((a, b, c))] *)
Definition np_vstack (a b c : ndarray) : ndarray := a ++ b ++ c.

(** [pic[i][j]] *)
Definition getitem2 (pic : ndarray) (i j : Z) : outcome rgba :=
  row ← py_index pic i; py_index row j.

(** ** The contour tracer *)

Fixpoint find_in_row (pic : ndarray) (i : Z) (js : list Z) : outcome (option point) :=
  match js with
  | [] => Done None
  | j :: js' =>
      px ← getitem2 pic i j;
      if negb (alpha px =? 0) then Done (Some (i, j)) else find_in_row pic i js'
  end.

Fixpoint find_in_rows (pic : ndarray) (rows : list Z) : outcome (option point) :=
  match rows with
  | [] => Done None
  | i :: rows' =>
      row0 ← py_index pic 0;
      r ← find_in_row pic i (range (len row0));
      match r with
      | Some p => Done (Some p)
      | None => find_in_rows pic rows'
      end
  end.

Definition find_first (pic : ndarray) : outcome point :=
  r ← find_in_rows pic (range (len pic));
  match r with
  | Some p => Done p
  | None => row0 ← py_index pic 0; Done (len pic, len row0)
  end.

(** The eight neighbours, clockwise from north. *)
Definition neighbours (p : point) : list point :=
  let '(i, j) := p in
  [ (i - 1, j); (i - 1, j + 1); (i, j + 1); (i + 1, j + 1);
    (i + 1, j); (i + 1, j - 1); (i, j - 1); (i - 1, j - 1) ].

(** The test of line 90-91 on one neighbour: foreground, with a background
    pixel among its four direct neighbours, and not among [prevs]. *)
Definition candidate (padded : ndarray) (prevs : list point) (p : point) : outcome bool :=
  let '(i, j) := p in
  px ← getitem2 padded i j;
  if negb (alpha px =? 0) then
    n ← getitem2 padded (i - 1) j;
    e ← getitem2 padded i (j + 1);
    s ← getitem2 padded (i + 1) j;
    w ← getitem2 padded i (j - 1);
    if existsb (fun x => alpha x =? 0) [n; e; s; w]
    then Done (negb (point_in p prevs))
    else Done false
  else Done false.

(** The [for ... break ... else] of lines 89-100: the first neighbour that
    passes the test, or [None] when the [else] branch is taken. *)
Fixpoint first_candidate (padded : ndarray) (prevs : list point) (ps : list point)
  : outcome (option point) :=
  match ps with
  | [] => Done None
  | p :: ps' =>
      ok ← candidate padded prevs p;
      if (ok : bool) then Done (Some p) else first_candidate padded prevs ps'
  end.

(** The [while True] of lines 88-103. *)
Fixpoint trace_loop (fuel : nat) (padded : ndarray) (first cur : point)
    (prevs line : list point) : outcome (list point) :=
  match fuel with
  | O => OutOfFuel
  | S fuel' =>
      r ← first_candidate padded prevs (neighbours cur);
      match r with
      | None => Raised (SystemExit 1)
      | Some p =>
          let line' := line ++ [p] in
          popped ← pop0 prevs;
          let prevs' := popped ++ [p] in
          if point_eqb p first then Done line'
          else trace_loop fuel' padded first p prevs' line'
      end
  end.

Definition pad (original : ndarray) : outcome (ndarray * Z * Z) :=
  let height := length original in
  row0 ← py_index original 0;
  let width := length row0 in
  let col := np_zeros height 1 in
  let padded := np_hstack col original col in
  let width := (width + 2)%nat in
  let row := np_zeros 1 width in
  let padded := np_vstack row padded row in
  let height := (height + 2)%nat in
  Done (padded, Z.of_nat width, Z.of_nat height).

Definition get_line (fuel : nat) (original : ndarray)
  : outcome (list point * rgba * (Z * Z)) :=
  '(padded, width, height) ← pad original;
  first ← find_first padded;
  let '(i, j) := first in
  color ← getitem2 padded i j;
  let prevs := replicate 8 (height, width) in
  line ← trace_loop fuel padded first first prevs [];
  Done (line, color, (width, height)).

(** ** The contour resampler (lines 261-271)

    [a] and [b] are names for [original_line] or [final_line], not copies:
    [del a[...]] changes the list that [a] names.  The two lists are kept in
    a store and [a], [b] are references into it. *)

Inductive line_ref := OriginalLine | FinalLine.

Record lines := Lines { original_line : list point; final_line : list point }.

Definition deref (r : line_ref) (s : lines) : list point :=
  match r with
  | OriginalLine => original_line s
  | FinalLine => final_line s
  end.

Definition assign (r : line_ref) (l : list point) (s : lines) : lines :=
  match r with
  | OriginalLine => Lines l (final_line s)
  | FinalLine => Lines (original_line s) l
  end.

(** [max(original_line, final_line, key=len)]: the first one among the
    longest. *)
Definition max_by_len (s : lines) : line_ref :=
  if len (original_line s) <? len (final_line s) then FinalLine else OriginalLine.

(** [min(original_line, final_line, key=len)]: the first one among the
    shortest. *)
Definition min_by_len (s : lines) : line_ref :=
  if len (final_line s) <? len (original_line s) then FinalLine else OriginalLine.

(** The inner [while i < len(a)] of lines 267-271. *)
Fixpoint decimate_pass (fuel : nat) (a b : line_ref) (inc i : float) (s : lines)
  : outcome lines :=
  match fuel with
  | O => OutOfFuel
  | S fuel' =>
      if float_lt_int i (len (deref a s)) then
        k ← int_of_float i;
        l ← py_del (deref a s) k;
        let s := assign a l s in
        if len (deref a s) =? len (deref b s) then Done s
        else decimate_pass fuel' a b inc (fadd i inc) s
      else Done s
  end.

(** The outer [while len(a) != len(b)] of lines 264-271.  The quotient of
    the two lengths is the binary64 quotient of their conversions, which is
    Python's correctly rounded [int / int] for lengths below 2^53. *)
Fixpoint resample_loop (fuel : nat) (a b : line_ref) (s : lines) : outcome lines :=
  match fuel with
  | O => OutOfFuel
  | S fuel' =>
      if negb (len (deref a s) =? len (deref b s)) then
        let inc := fdiv (float_of_int (len (deref a s)))
                        (float_of_int (len (deref a s) - len (deref b s))) in
        s ← decimate_pass fuel' a b inc f0 s;
        resample_loop fuel' a b s
      else Done s
  end.

Definition resample (fuel : nat) (s : lines) : outcome lines :=
  let a := max_by_len s in
  let b := min_by_len s in
  resample_loop fuel a b s.

(** ** The interpolator (lines 276-286) *)

(** [np.linspace(start, stop, num)] as numpy documents it: [num] samples
    [start + k * step] with [step = (stop - start) / (num - 1)], the last
    one replaced by [stop] itself when [num > 1]; a single sample is
    [start]; a negative [num] is a [ValueError]. *)
Definition linspace (start stop : float) (num : Z) : outcome (list float) :=
  if num <? 0 then Raised ValueError
  else
    let step := fdiv (fsub stop start) (float_of_int (num - 1)) in
    let y := map (fun k => fadd (fmul (float_of_int k) step) start) (range num) in
    Done (if 1 <? num then <[Z.to_nat (num - 1) := stop]> y
          else map (fun _ => start) y).

Definition interpolate_point (t : float) (pq : point * point) : outcome point :=
  let '((i0, j0), (i1, j1)) := pq in
  x ← int_of_float (lerp (float_of_int j0) (float_of_int j1) t);
  y ← int_of_float (lerp (float_of_int i0) (float_of_int i1) t);
  Done (x, y).

Fixpoint for_each {A B} (f : A -> outcome B) (l : list A) : outcome (list B) :=
  match l with
  | [] => Done []
  | x :: l' => y ← f x; ys ← for_each f l'; Done (y :: ys)
  end.

(** Lines 277-279. *)
Definition interpolate (s : lines) (t : float) : outcome (list point) :=
  for_each (interpolate_point t) (zip (original_line s) (final_line s)).

(** Lines 283-286. *)
Definition interpolate_color (original_color final_color : rgba) (t : float)
  : outcome rgba :=
  r ← int_of_float (lerp (float_of_int (red original_color))
                         (float_of_int (red final_color)) t);
  g ← int_of_float (lerp (float_of_int (green original_color))
                         (float_of_int (green final_color)) t);
  b ← int_of_float (lerp (float_of_int (blue original_color))
                         (float_of_int (blue final_color)) t);
  Done (RGBA r g b 255).

(** ** Images and the flood fill (lines 128-140) *)

Record image := Image { width : Z; height : Z; pixels : Z -> Z -> rgba }.

(** [Image.new("RGBA", (w, h), color)] *)
Definition Image_new (w h : Z) (color : rgba) : image := Image w h (fun _ _ => color).

Definition getpixel (img : image) (xy : point) : rgba := pixels img xy.1 xy.2.

(** Pillow turns a colour into the ink it stores by clamping each channel
    to 0..255. *)
Definition clip8 (v : Z) : Z := Z.max 0 (Z.min 255 v).

Definition clip (color : rgba) : rgba :=
  RGBA (clip8 (red color)) (clip8 (green color)) (clip8 (blue color))
       (clip8 (alpha color)).

(** [img.putpixel(xy, color)]: the pixel takes the clamped colour. *)
Definition putpixel (img : image) (xy : point) (color : rgba) : image :=
  Image (width img) (height img)
    (fun x y => if (x =? xy.1) && (y =? xy.2) then clip color else pixels img x y).

(** The calls of [getpixel] and [putpixel] a run makes, in order. *)
Inductive access := Read (xy : point) | Write (xy : point).

(** The state of the [while stack] loop.  The Python list is used as a
    stack through [append] and [pop]; here its top is the head. *)
Record fill_state :=
  FillState { canvas : image; stack : list point; accesses : list access }.

Definition inside (img : image) (x y : Z) : bool :=
  (0 <=? x) && (x <? width img) && (0 <=? y) && (y <? height img).

(** One iteration of the loop body; nothing happens on an empty stack. *)
Definition fill_step (color : rgba) (st : fill_state) : fill_state :=
  match stack st with
  | [] => st
  | n :: rest =>
      let '(x, y) := n in
      if inside (canvas st) x y then
        if rgba_eqb (getpixel (canvas st) n) WHITE then
          FillState (putpixel (canvas st) n color)
            ((x, y + 1) :: (x, y - 1) :: (x + 1, y) :: (x - 1, y) :: rest)
            (accesses st ++ [Read n; Write n])
        else FillState (canvas st) rest (accesses st ++ [Read n])
      else FillState (canvas st) rest (accesses st)
  end.

Fixpoint fill_loop (fuel : nat) (color : rgba) (st : fill_state) : outcome fill_state :=
  match stack st with
  | [] => Done st
  | _ :: _ =>
      match fuel with
      | O => OutOfFuel
      | S fuel' => fill_loop fuel' color (fill_step color st)
      end
  end.

Definition flood_fill (fuel : nat) (img : image) (xy : point) (color : rgba)
  : outcome image :=
  st ← fill_loop fuel color (FillState img [xy] []);
  Done (canvas st).

(** ** The rasteriser and the frame loop (lines 275-296) *)

(** The calls of [draw.line] of lines 288-290, as (from, to) pairs. *)
Definition outline_segments (interpolated : list point)
  : outcome (list (point * point)) :=
  segs ← for_each (fun i => p ← py_index interpolated (i - 1);
                            q ← py_index interpolated i;
                            Done (p, q))
                  (range (len interpolated - 1));
  p ← py_index interpolated (-1);
  q ← py_index interpolated 0;
  Done (segs ++ [(p, q)]).

Inductive Format := PNG | GIF | JPEG.

(** [frame.convert("RGB")]: the alpha channel is dropped; an RGB pixel is
    kept here as a pixel of alpha 255. *)
Definition convert_RGB (img : image) : image :=
  Image (width img) (height img)
    (fun x y => let px := pixels img x y in RGBA (red px) (green px) (blue px) 255).

(** What is handed to [save]. *)
Inductive output :=
  | GifFile (first : image) (append_images : list image) (duration : float) (loop : Z)
  | FrameFiles (format : Format) (numbered : list (Z * image)).

Section Rasteriser.

(** [ImageDraw.Draw(img).line(p + q, fill=color, width=1)]: Pillow's line
    drawing, which is not part of this program. *)
Variable draw_line : image -> point -> point -> rgba -> image.

Definition draw_outline (img : image) (segs : list (point * point)) (color : rgba)
  : image :=
  fold_left (fun im pq => draw_line im pq.1 pq.2 color) segs img.

(** The body of the [for t in ...] loop. *)
Definition render_frame (fuel : nat) (s : lines) (original_color final_color : rgba)
    (pic_width pic_height : Z) (t : float) : outcome image :=
  interpolated ← interpolate s t;
  let img := Image_new pic_width pic_height WHITE in
  color ← interpolate_color original_color final_color t;
  segs ← outline_segments interpolated;
  let img := draw_outline img segs color in
  p0 ← py_index interpolated 0;
  flood_fill fuel img (p0.1, p0.2 + 5) color.

Definition render_frames (fuel : nat) (s : lines) (original_color final_color : rgba)
    (pic_width pic_height : Z) (nframes : Z) : outcome (list image) :=
  ts ← linspace f0 f1 nframes;
  for_each (render_frame fuel s original_color final_color pic_width pic_height) ts.

(** [main] from line 255 on: the two decoded images in, what is saved out. *)
Definition main (fuel : nat) (original final : ndarray) (nframes : Z)
    (duration : float) (format : Format) (loop : Z) : outcome output :=
  '(original_line, original_color, original_size) ← get_line fuel original;
  '(final_line, final_color, final_size) ← get_line fuel final;
  let pic_width := Z.max original_size.1 final_size.1 in
  let pic_height := Z.max original_size.2 final_size.2 in
  s ← resample fuel (Lines original_line final_line);
  frames ← render_frames fuel s original_color final_color pic_width pic_height nframes;
  match format with
  | GIF =>
      first ← py_index frames 0;
      Done (GifFile first (drop 1 frames)
              (fdiv (fmul duration f1000) (float_of_int nframes)) loop)
  | PNG =>
      Done (FrameFiles PNG (zip (map (fun i => i + 1) (range (len frames))) frames))
  | JPEG =>
      Done (FrameFiles JPEG (zip (map (fun i => i + 1) (range (len frames)))
                                 (map convert_RGB frames)))
  end.

End Rasteriser.

(** ** The command line (lines 165-253)

    [argv] is a list of strings.  What is written to the terminal is left
    out: an error is the [exit(1)] that follows its message, and [help] is
    its [exit(0)]. *)

(** [s[n:]] *)
Definition slice_from (n : nat) (s : string) : string :=
  String.substring n (String.length s - n) s.

Definition DEFAULT_DURATION : float := float_of_int 7.
Definition DEFAULT_NFRAMES : Z := 30.
Definition DEFAULT_FORMAT : Format := GIF.

(** The local variables of [main] that the options set. *)
Record options := Options {
  original_path : string;
  final_path : string;
  output_path : string;
  nframes : Z;
  duration : float;
  format : Format;
  loop : Z
}.

Definition Format_eqb (f g : Format) : bool :=
  match f, g with
  | PNG, PNG | GIF, GIF | JPEG, JPEG => true
  | _, _ => false
  end.

(** [d > 0] for a float [d]: false for a NaN. *)
Definition float_gt_0 (d : float) : bool := SFltb f0 d.

Section CommandLine.

(** Python's [int(s)] and [float(s)] on a string, [None] for a
    [ValueError], the tests of [os.path], and [os.makedirs] with the
    exception it raises, if it raises one ([OSError] or another), are not
    part of this program. *)
Variable int_of_string : string -> option Z.
Variable float_of_string : string -> option float.
Variables isfile isdir : string -> bool.
Variable makedirs : string -> option exn.

(** [try: x = int(s); assert ok(x) ... except (ValueError, AssertionError):
    ... exit(1)] *)
Definition checked_int (ok : Z -> bool) (s : string) : outcome Z :=
  match int_of_string s with
  | Some n => if ok n then Done n else Raised (SystemExit 1)
  | None => Raised (SystemExit 1)
  end.

(** [try: d = float(s); assert d > 0 ... except ...: ... exit(1)] *)
Definition checked_float (s : string) : outcome float :=
  match float_of_string s with
  | Some d => if float_gt_0 d then Done d else Raised (SystemExit 1)
  | None => Raised (SystemExit 1)
  end.

(** The [while argv] loop of lines 175-232. *)
Fixpoint parse_options (argv : list string) (o : options) : outcome options :=
  match argv with
  | [] => Done o
  | arg :: argv =>
      if String.eqb arg "-o" then
        match argv with
        | path :: argv =>
            parse_options argv
              (Options (original_path o) (final_path o) path (nframes o)
                 (duration o) (format o) (loop o))
        | [] => Raised (SystemExit 1)
        end
      else if String.prefix "-n" arg then
        n ← checked_int (fun n => 0 <? n) (slice_from 2 arg);
        parse_options argv
          (Options (original_path o) (final_path o) (output_path o) n
             (duration o) (format o) (loop o))
      else if String.prefix "-d" arg then
        d ← checked_float (slice_from 2 arg);
        parse_options argv
          (Options (original_path o) (final_path o) (output_path o) (nframes o)
             d (format o) (loop o))
      else if String.prefix "--duration=" arg then
        d ← checked_float (slice_from 11 arg);
        parse_options argv
          (Options (original_path o) (final_path o) (output_path o) (nframes o)
             d (format o) (loop o))
      else if String.prefix "--loop=" arg then
        l ← checked_int (fun l => -1 <=? l) (slice_from 7 arg);
        parse_options argv
          (Options (original_path o) (final_path o) (output_path o) (nframes o)
             (duration o) (format o) l)
      else if String.prefix "-l" arg then
        l ← checked_int (fun l => -1 <=? l) (slice_from 2 arg);
        parse_options argv
          (Options (original_path o) (final_path o) (output_path o) (nframes o)
             (duration o) (format o) l)
      else if String.eqb arg "--gif" then
        parse_options argv
          (Options (original_path o) (final_path o) (output_path o) (nframes o)
             (duration o) GIF (loop o))
      else if String.prefix "-f" arg then
        let s := slice_from 2 arg in
        let format :=
          if String.eqb s "gif" then GIF
          else if String.eqb s "png" then PNG
          else if String.eqb s "jpeg" then JPEG
          else format o in
        parse_options argv
          (Options (original_path o) (final_path o) (output_path o) (nframes o)
             (duration o) format (loop o))
      else if String.eqb arg "-h" || String.eqb arg "--help" then
        Raised (SystemExit 0)
      else if negb (String.eqb (original_path o) "") then
        parse_options argv
          (Options (original_path o) arg (output_path o) (nframes o)
             (duration o) (format o) (loop o))
      else
        parse_options argv
          (Options arg (final_path o) (output_path o) (nframes o)
             (duration o) (format o) (loop o))
  end.

(** Lines 165-253: the options, and the directory that [makedirs] has
    made, if it was called. *)
Definition main_options (argv : list string) : outcome (options * option string) :=
  match argv with
  | [] => Raised IndexError
  | program :: argv =>
      o ← parse_options argv
            (Options "" "" "" DEFAULT_NFRAMES DEFAULT_DURATION DEFAULT_FORMAT 0);
      if String.eqb (original_path o) "" || String.eqb (final_path o) ""
      then Raised (SystemExit 1)
      else
        let output_path :=
          if String.eqb (output_path o) "" then
            if Format_eqb (format o) GIF then "res.gif" else "res"
          else output_path o in
        let o := Options (original_path o) (final_path o) output_path (nframes o)
                   (duration o) (format o) (loop o) in
        if isfile output_path && negb (Format_eqb (format o) GIF)
        then Raised (SystemExit 1)
        else if isdir output_path && Format_eqb (format o) GIF
        then Raised (SystemExit 1)
        else if negb (isdir output_path) && negb (Format_eqb (format o) GIF)
        then
          match makedirs output_path with
          | Some e => Raised e
          | None => Done (o, Some output_path)
          end
        else Done (o, None)
  end.

End CommandLine.


(** * Vocabulary of the statements *)

(** ** Tracing *)

(** Each point of [ps] is one of the eight neighbours of the point before
    it, the first one a neighbour of [cur]. *)
Fixpoint walk (cur : point) (ps : list point) : Prop :=
  match ps with
  | [] => True
  | p :: ps' => In p (neighbours cur) /\ walk p ps'
  end.

Definition rectangular (w : nat) (pic : ndarray) : Prop :=
  Forall (fun row => length row = w) pic.

Definition transparent (pic : ndarray) : Prop :=
  Forall (Forall (fun px => alpha px = 0)) pic.

Definition red_px : rgba := RGBA 255 0 0 255.
Definition blue_px : rgba := RGBA 0 0 255 255.

(** Blocks of foreground pixels: 2x2, 7x7 and 1x2. *)
Definition square2 : ndarray := [[red_px; red_px]; [red_px; red_px]].
Definition square7 : ndarray := replicate 7 (replicate 7 red_px).
Definition domino : ndarray := [[red_px; red_px]].
Definition blue_square2 : ndarray := [[blue_px; blue_px]; [blue_px; blue_px]].

(** ** Floats *)

(** The sign bit is clear (or the value is a NaN). *)
Definition positive_sign (f : float) : Prop :=
  match f with
  | S754_zero s | S754_infinity s | S754_finite s _ _ => s = false
  | S754_nan => True
  end.

(** [n < f], on the exact values. *)
Definition int_lt_float (n : Z) (f : float) : bool :=
  match f with
  | S754_nan => false
  | S754_infinity s => negb s
  | S754_zero _ => n <? 0
  | S754_finite s m e =>
      if 0 <=? e then n <? cond_Zopp s (Zpos m * 2 ^ e)
      else n * 2 ^ (- e) <? cond_Zopp s (Zpos m)
  end.

(** [z] is [f] truncated toward zero: [z <= f < z + 1] when [f] is not
    below zero, [z - 1 < f <= z] when it is. *)
Definition truncation_of (f : float) (z : Z) : Prop :=
  (float_lt_int f 0 = false ->
     float_lt_int f z = false /\ float_lt_int f (z + 1) = true) /\
  (float_lt_int f 0 = true ->
     int_lt_float z f = false /\ int_lt_float (z - 1) f = true).

(** Rounding to the nearest integer, ties to even (Python's [round]), which
    is what the specification asks of the interpolator. *)
Definition round_of_float (f : float) : outcome Z :=
  match f with
  | S754_zero _ => Done 0
  | S754_finite s m e =>
      if 0 <=? e then Done (cond_Zopp s (Zpos m * 2 ^ e))
      else
        let q := Zpos m / 2 ^ (- e) in
        let r := Zpos m mod 2 ^ (- e) in
        let up := match 2 * r ?= 2 ^ (- e) with
                  | Lt => false
                  | Eq => Z.odd q
                  | Gt => true
                  end in
        Done (cond_Zopp s (if up then q + 1 else q))
  | S754_nan => Raised ValueError
  | S754_infinity _ => Raised OverflowError
  end.

(** The interpolator as the specification words it (4.3): each coordinate
    and each colour channel is the interpolated value rounded to the nearest
    integer. *)
Definition interpolate_point_rounded (t : float) (pq : point * point) : outcome point :=
  let '((i0, j0), (i1, j1)) := pq in
  x ← round_of_float (lerp (float_of_int j0) (float_of_int j1) t);
  y ← round_of_float (lerp (float_of_int i0) (float_of_int i1) t);
  Done (x, y).

Definition interpolate_color_rounded (color0 color1 : rgba) (t : float) : outcome rgba :=
  r ← round_of_float (lerp (float_of_int (red color0)) (float_of_int (red color1)) t);
  g ← round_of_float (lerp (float_of_int (green color0)) (float_of_int (green color1)) t);
  b ← round_of_float (lerp (float_of_int (blue color0)) (float_of_int (blue color1)) t);
  Done (RGBA r g b 255).

(** [0 <= t <= 1] *)
Definition in_unit_interval (t : float) : Prop :=
  t <> S754_nan /\ float_lt_int t 0 = false /\ int_lt_float 1 t = false.

(** 0.75 *)
Definition three_quarters : float := fdiv (float_of_int 3) (float_of_int 4).

(** Integers that binary64 holds exactly. *)
Definition exact_int (z : Z) : Prop := Z.abs z < 2 ^ 53.

Definition exact_point (p : point) : Prop := exact_int p.1 /\ exact_int p.2.

Definition exact_color (c : rgba) : Prop :=
  exact_int (red c) /\ exact_int (green c) /\ exact_int (blue c).

(** A zero, or a finite value of magnitude below 2^B. *)
Definition finite_below (B : Z) (f : float) : Prop :=
  match f with
  | S754_zero _ => True
  | S754_finite _ m e => Zpos (digits2_pos m) + e <= B
  | _ => False
  end.

(** [(x, y)] from [(row, column)]. *)
Definition xy_of (p : point) : point := (p.2, p.1).

(** ** Flood fill *)

(** The coordinates inside an image. *)
Definition coords (img : image) : list point :=
  y ← seqZ 0 (height img); x ← seqZ 0 (width img); [(x, y)].

Definition is_white (img : image) (xy : point) : bool :=
  rgba_eqb (getpixel img xy) WHITE.

(** The number of opaque-white pixels of an image. *)
Definition white_count (img : image) : nat :=
  length (List.filter (is_white img) (coords img)).

Definition access_inside (img : image) (a : access) : Prop :=
  match a with
  | Read xy | Write xy => inside img xy.1 xy.2 = true
  end.

(** The state after [n] iterations of the loop body. *)
Definition fill_run (n : nat) (color : rgba) (st : fill_state) : fill_state :=
  Nat.iter n (fill_step color) st.

Definition four_neighbours (xy : point) : list point :=
  [ (xy.1, xy.2 + 1); (xy.1, xy.2 - 1); (xy.1 + 1, xy.2); (xy.1 - 1, xy.2) ].

(** An opaque-white pixel inside the image with an opaque-white pixel
    inside the image next to it. *)
Definition white_pair (img : image) (xy : point) : Prop :=
  inside img xy.1 xy.2 = true /\ is_white img xy = true /\
  exists q, In q (four_neighbours xy) /\
            inside img q.1 q.2 = true /\ is_white img q = true.

(** What every iteration keeps: the size of the canvas, and all accesses
    made so far inside it. *)
Definition fill_inv (img : image) (st : fill_state) : Prop :=
  width (canvas st) = width img /\ height (canvas st) = height img /\
  Forall (access_inside img) (accesses st).

(** Some position on the stack is one of a pair of opaque-white pixels. *)
Definition has_white_pair (st : fill_state) : Prop :=
  exists p, In p (stack st) /\ white_pair (canvas st) p.


(** The channels of a colour that Pillow takes as ink: each fits a C int
    (Pillow raises [OverflowError] for others). *)
Definition c_int (v : Z) : Prop := - 2 ^ 31 <= v < 2 ^ 31.

Definition int_channels (color : rgba) : Prop :=
  c_int (red color) /\ c_int (green color) /\ c_int (blue color) /\
  c_int (alpha color).

(** ** A line rasteriser to instantiate [draw_line] with *)

Definition plot (img : image) (xy : point) (color : rgba) : image :=
  if inside img xy.1 xy.2 then putpixel img xy color else img.

(** The positions on the segment from [p] to [q]: one for each step along
    the longer axis, the other coordinate rounded. *)
Definition line_points (p q : point) : list point :=
  let dx := q.1 - p.1 in
  let dy := q.2 - p.2 in
  let n := Z.max (Z.abs dx) (Z.abs dy) in
  map (fun k => if n =? 0 then p
                else (p.1 + (2 * k * dx + n) / (2 * n),
                      p.2 + (2 * k * dy + n) / (2 * n)))
      (range (n + 1)).

Definition plot_line (img : image) (p q : point) (color : rgba) : image :=
  fold_left (fun im xy => plot im xy color) (line_points p q) img.

(** ** Tracing, in the coordinates of the image *)

(** [pic[i][j]] for an index inside the array. *)
Definition pixel_at (pic : list (list rgba)) (i j : nat) : option rgba :=
  row ← pic !! i; row !! j.

(** The image continued by transparent pixels on all sides, in the
    coordinates of the padded array: position (i, j) stands for
    [original[i-1][j-1]]. *)
Definition extended (original : ndarray) (i j : Z) : rgba :=
  if (1 <=? i) && (1 <=? j)
  then default BLANK (pixel_at original (Z.to_nat (i - 1)) (Z.to_nat (j - 1)))
  else BLANK.

(** The four direct neighbours, in the order of line 90. *)
Definition cross (p : point) : list point :=
  [ (p.1 - 1, p.2); (p.1, p.2 + 1); (p.1 + 1, p.2); (p.1, p.2 - 1) ].

(** A foreground pixel with a background pixel, or the outside of the
    image, directly next to it. *)
Definition boundary_pixel (original : ndarray) (p : point) : Prop :=
  alpha (extended original p.1 p.2) <> 0 /\
  exists q, In q (cross p) /\ alpha (extended original q.1 q.2) = 0.

(** Position (i', j') comes before (i, j) in the row-major scan. *)
Definition row_major_before (i' j' i j : nat) : Prop :=
  (i' < i)%nat \/ (i' = i /\ (j' < j)%nat).

(** Equal points are at least nine places apart: at least eight other
    entries lie between them. *)
Definition spaced (l : list point) : Prop :=
  forall k k' p, (k < k')%nat -> l !! k = Some p -> l !! k' = Some p -> (k + 8 < k')%nat.

(** A 4x4 image whose contour passes twice through one pixel. *)
Definition hooked4 : ndarray :=
  [ [red_px; red_px; BLANK; BLANK];
    [BLANK; red_px; BLANK; red_px];
    [red_px; red_px; red_px; red_px];
    [red_px; red_px; red_px; red_px] ].

(** The last eight entries of the line, with [s] for the missing ones:
    the value of [prevs] once [line] has been traced. *)
Definition ring (s : point) (line : list point) : list point :=
  drop (length line) (replicate 8 s ++ line).

(** The test of lines 90-91, read on the image itself. *)
Definition is_candidate (original : ndarray) (prevs : list point) (p : point) : bool :=
  negb (alpha (extended original p.1 p.2) =? 0)
  && existsb (fun q => alpha (extended original q.1 q.2) =? 0) (cross p)
  && negb (point_in p prevs).

(** A position of the padded array that stands for a position of the
    image, whose first row is [row0]. *)
Definition interior (original : ndarray) (row0 : list rgba) (p : point) : Prop :=
  1 <= p.1 <= len original /\ 1 <= p.2 <= len row0.

(** ** The filled region *)

(** An opaque-white pixel inside the image. *)
Definition fillable (img : image) (p : point) : Prop :=
  inside img p.1 p.2 = true /\ is_white img p = true.

(** The opaque-white pixels that a path of opaque-white pixels, each
    directly next to the one before, joins to the seed. *)
Inductive region (img : image) (seed : point) : point -> Prop :=
| region_seed : fillable img seed -> region img seed seed
| region_next p q :
    region img seed p -> In q (four_neighbours p) -> fillable img q ->
    region img seed q.

(** What the loop keeps while it fills from [seed]: only pixels of the
    region are recoloured, the stack holds the seed or neighbours of the
    region, and the neighbours of a recoloured pixel are recoloured or
    still on the stack. *)
Record region_inv (img : image) (seed : point) (color : rgba) (st : fill_state)
  : Prop := RegionInv {
  inv_width : width (canvas st) = width img;
  inv_height : height (canvas st) = height img;
  inv_painted : forall p,
    getpixel (canvas st) p = getpixel img p \/
    (region img seed p /\ getpixel (canvas st) p = clip color);
  inv_stack : forall q, In q (stack st) ->
    q = seed \/ exists p, region img seed p /\ In q (four_neighbours p);
  inv_frontier : forall p q,
    fillable img p -> is_white (canvas st) p = false ->
    In q (four_neighbours p) -> fillable img q ->
    is_white (canvas st) q = false \/ In q (stack st);
  inv_seed : fillable img seed ->
    is_white (canvas st) seed = false \/ In seed (stack st)
}.

(** ** The command line *)

(** An argument that is not empty and does not start with a dash. *)
Definition plain (arg : string) : Prop :=
  arg <> ""%string /\ String.prefix "-" arg = false.

(** What the assertions of the option loop check. *)
Definition checked (o : options) : Prop :=
  0 < nframes o /\ -1 <= loop o /\ float_gt_0 (duration o) = true.

(** Instances of the parameters: [int] and [float] on decimal numerals, and
    a file system with no file and no directory. *)
Definition decimal (s : string) : option Z :=
  option_map Z.of_int (DecimalString.NilZero.int_of_string s).

Definition decimal_float (s : string) : option float :=
  option_map float_of_int (decimal s).

Definition no_path (path : string) : bool := false.

(** A [makedirs] that always succeeds, and one that never does. *)
Definition makes_dirs (path : string) : option exn := None.

Definition read_only (path : string) : option exn := Some OSError.

(** An option with a number that [int] or [float] does not read, or that
    fails the assertion of its branch. *)
Definition rejected_int (int_of_string : string -> option Z) (ok : Z -> bool)
    (s : string) : Prop :=
  match int_of_string s with
  | Some n => ok n = false
  | None => True
  end.

Definition rejected_float (float_of_string : string -> option float) (s : string)
  : Prop :=
  match float_of_string s with
  | Some d => float_gt_0 d = false
  | None => True
  end.

Definition bad_number (int_of_string : string -> option Z)
    (float_of_string : string -> option float) (arg : string) : Prop :=
  (String.prefix "-n" arg = true /\
   rejected_int int_of_string (fun n => 0 <? n) (slice_from 2 arg)) \/
  (String.prefix "-d" arg = true /\
   rejected_float float_of_string (slice_from 2 arg)) \/
  (String.prefix "--duration=" arg = true /\
   rejected_float float_of_string (slice_from 11 arg)) \/
  (String.prefix "--loop=" arg = true /\
   rejected_int int_of_string (fun l => -1 <=? l) (slice_from 7 arg)) \/
  (String.prefix "-l" arg = true /\
   rejected_int int_of_string (fun l => -1 <=? l) (slice_from 2 arg)).

(** * Theorems *)

(** ** The [outcome] monad *)

Lemma bind_Done {A B} (m : outcome A) (f : A -> outcome B) (b : B) :
  (m ≫= f) = Done b -> exists a, m = Done a /\ f a = Done b.
Proof. destruct m; simpl; intros H; try discriminate. eauto. Qed.

Lemma bind_Done_eq {A B} (m : outcome A) (f : A -> outcome B) (a : A) :
  m = Done a -> (m ≫= f) = f a.
Proof. intros ->. reflexivity. Qed.

Ltac inv_bind H :=
  let a := fresh "a" in
  let Ha := fresh "Ha" in
  apply bind_Done in H as (a & Ha & H).

Lemma point_eqb_eq (p q : point) : point_eqb p q = true <-> p = q.
Proof.
  destruct p as [a b], q as [c d]. unfold point_eqb. simpl.
  rewrite andb_true_iff, !Z.eqb_eq. split; [intros [-> ->]; reflexivity|].
  intros H. injection H. auto.
Qed.

Lemma rgba_eqb_eq (p q : rgba) : rgba_eqb p q = true <-> p = q.
Proof.
  destruct p, q. unfold rgba_eqb. simpl.
  rewrite !andb_true_iff, !Z.eqb_eq. split.
  - intros [[[-> ->] ->] ->]. reflexivity.
  - intros H. injection H. auto.
Qed.

(** ** C1: the outline *)

(** C1 (code defect).  Morphing a 7x7 square into a 2x2 square: the first
    frame (t = 0) is drawn from the four points that resampling leaves of the
    larger contour.  The rasteriser calls [draw.line] for the closing segment
    twice and for the first two sides, and never for the segment between the
    last two points, in either direction: the outline is left open between
    [points[n-2]] and [points[n-1]]. *)
Theorem outline_misses_last_segment :
  let contour7 : list point :=
    [ (1, 2); (1, 3); (1, 4); (1, 5); (1, 6); (1, 7); (2, 7); (3, 7); (4, 7);
      (5, 7); (6, 7); (7, 7); (7, 6); (7, 5); (7, 4); (7, 3); (7, 2); (7, 1);
      (6, 1); (5, 1); (4, 1); (3, 1); (2, 1); (1, 1) ] in
  let contour2 : list point := [(1, 2); (2, 2); (2, 1); (1, 1)] in
  let s := Lines [(3, 7); (6, 7); (7, 2); (4, 1)] contour2 in
  let interpolated : list point := [(7, 3); (7, 6); (2, 7); (1, 4)] in
  let calls := [ ((1, 4), (7, 3)); ((7, 3), (7, 6)); ((7, 6), (2, 7));
                 ((1, 4), (7, 3)) ] in
  get_line 30 square7 = Done (contour7, red_px, (9, 9)) /\
  get_line 30 square2 = Done (contour2, red_px, (4, 4)) /\
  resample 30 (Lines contour7 contour2) = Done s /\
  interpolate s f0 = Done interpolated /\
  outline_segments interpolated = Done calls /\
  ~ In ((2, 7), (1, 4)) calls /\ ~ In ((1, 4), (2, 7)) calls.
Proof.
  repeat (split; [vm_compute; reflexivity|]).
  split; intros Hin; simpl in Hin; intuition congruence.
Qed.

(** ** C3, C4: what a successful trace returns *)

Lemma first_candidate_In padded prevs ps p :
  first_candidate padded prevs ps = Done (Some p) -> In p ps.
Proof.
  induction ps as [|q ps IH]; simpl; intros H; [discriminate|].
  inv_bind H. destruct a.
  - injection H as ->. now left.
  - right. auto.
Qed.

Lemma neighbours_neq (p q : point) : In q (neighbours p) -> q <> p.
Proof.
  destruct p as [i j]. simpl. intros H Heq. subst q.
  repeat (destruct H as [H|H]; [injection H; lia|]). destruct H.
Qed.

(** The loop returns what it was given followed by a walk from the current
    point that ends with the first arrival at [first]. *)
Lemma trace_loop_spec fuel : forall padded first cur prevs line res,
  trace_loop fuel padded first cur prevs line = Done res ->
  exists body, res = line ++ body ++ [first] /\ ~ In first body /\
               walk cur (body ++ [first]).
Proof.
  induction fuel as [|fuel IH]; intros padded first cur prevs line res H;
    [discriminate|].
  simpl in H. inv_bind H. destruct a as [p|]; [|discriminate].
  inv_bind H. apply first_candidate_In in Ha.
  destruct (point_eqb p first) eqn:E.
  - apply point_eqb_eq in E. subst p. injection H as <-.
    exists []. simpl. auto.
  - apply IH in H as (body & -> & Hnot & Hwalk).
    exists (p :: body). rewrite <- app_assoc. simpl. split; [reflexivity|].
    split; [|auto].
    intros [->|Hin]; [|auto].
    assert (point_eqb first first = true) by now apply point_eqb_eq.
    congruence.
Qed.

Lemma get_line_spec fuel original line color size :
  get_line fuel original = Done (line, color, size) ->
  exists padded first body,
    pad original = Done (padded, size.1, size.2) /\
    find_first padded = Done first /\
    getitem2 padded first.1 first.2 = Done color /\
    line = body ++ [first] /\ ~ In first body /\ walk first line.
Proof.
  unfold get_line. intros H. inv_bind H. destruct a as [[padded w] h].
  inv_bind H. destruct a as [i j]. inv_bind H. inv_bind H.
  injection H as -> -> <-.
  apply trace_loop_spec in Ha2 as (body & -> & Hnot & Hwalk).
  exists padded, (i, j), body. simpl. repeat split; auto.
Qed.

Lemma walk_lookup : forall ps cur k p q,
  walk cur ps -> ps !! k = Some p -> ps !! S k = Some q -> In q (neighbours p).
Proof.
  induction ps as [|a ps IH]; intros cur k p q Hw Hp Hq; [discriminate|].
  destruct Hw as [_ Hw]. destruct k as [|k].
  - injection Hp as ->. destruct ps as [|b ps]; [discriminate|].
    injection Hq as ->. apply Hw.
  - simpl in Hp, Hq. eauto.
Qed.

(** C3 (as amended).  When tracing succeeds, with [start] the pixel found by
    the row-major scan of the padded image, the returned contour is the whole
    accumulated sequence: its last element is [start], and [start] occurs
    nowhere before, so the walk stopped at its first return to [start]. *)
Theorem get_line_ends_at_start fuel original padded w h start line color size :
  pad original = Done (padded, w, h) ->
  find_first padded = Done start ->
  get_line fuel original = Done (line, color, size) ->
  last line = Some start /\
  exists body, line = body ++ [start] /\ ~ In start body.
Proof.
  intros Hpad Hfirst H.
  apply get_line_spec in H as (padded' & first & body & Hpad' & Hfirst' & _ & -> & Hnot & _).
  rewrite Hpad in Hpad'. injection Hpad' as <- _ _.
  rewrite Hfirst in Hfirst'. injection Hfirst' as <-.
  split; [apply last_snoc|]. eauto.
Qed.

Lemma get_line_ends_at_start_witness :
  last [(1, 2); (2, 2); (2, 1); (1, 1)] = Some (1, 1) /\
  exists body, [(1, 2); (2, 2); (2, 1); (1, 1)] = body ++ [(1, 1)] /\ ~ In (1, 1) body.
Proof.
  apply (get_line_ends_at_start 10 square2
           [ [BLANK; BLANK; BLANK; BLANK]; [BLANK; red_px; red_px; BLANK];
             [BLANK; red_px; red_px; BLANK]; [BLANK; BLANK; BLANK; BLANK] ]
           4 4 (1, 1) _ red_px (4, 4)); reflexivity.
Defined.

(** C3 as the specification states it fails: on the 2x2 block the start pixel (1, 1)
    is the last element of the returned contour. *)
Lemma start_is_last_counterexample :
  ~ (forall fuel original padded w h start line color size,
       pad original = Done (padded, w, h) ->
       find_first padded = Done start ->
       get_line fuel original = Done (line, color, size) ->
       last line <> Some start).
Proof.
  intros H.
  apply (H 10%nat square2
           [ [BLANK; BLANK; BLANK; BLANK]; [BLANK; red_px; red_px; BLANK];
             [BLANK; red_px; red_px; BLANK]; [BLANK; BLANK; BLANK; BLANK] ]
           4 4 (1, 1) [(1, 2); (2, 2); (2, 1); (1, 1)] red_px (4, 4));
    reflexivity.
Qed.

(** C4 (as amended).  When tracing succeeds the contour has at least two
    points, no two consecutive points are identical, and its last point
    differs from its first. *)
Theorem get_line_contour_invariant fuel original line color size :
  get_line fuel original = Done (line, color, size) ->
  (2 <= length line)%nat /\
  (forall k p q, line !! k = Some p -> line !! S k = Some q -> p <> q) /\
  (forall p q, last line = Some p -> head line = Some q -> p <> q).
Proof.
  intros H.
  apply get_line_spec in H as (padded & first & body & _ & _ & _ & -> & Hnot & Hwalk).
  assert (Hhead : forall q, head (body ++ [first]) = Some q -> q <> first).
  { intros q Hq. destruct body as [|b body]; simpl in *.
    - injection Hq as <-. destruct Hwalk as [Hw _].
      now apply neighbours_neq in Hw.
    - injection Hq as <-. intros ->. apply Hnot. now left. }
  split; [|split].
  - destruct body as [|b body]; [|rewrite length_app; simpl; lia].
    exfalso. now apply (Hhead first eq_refl).
  - intros k p q Hp Hq Heq. subst q.
    apply (neighbours_neq p p); [|reflexivity].
    apply (walk_lookup _ _ _ _ _ Hwalk Hp Hq).
  - intros p q Hp Hq. rewrite last_snoc in Hp. injection Hp as Hp.
    intros Heq. apply (Hhead q Hq). congruence.
Qed.

Lemma get_line_contour_invariant_witness :
  let line : list point := [(1, 2); (1, 1)] in
  (2 <= length line)%nat /\
  (forall k p q, line !! k = Some p -> line !! S k = Some q -> p <> q) /\
  (forall p q, last line = Some p -> head line = Some q -> p <> q).
Proof.
  apply (get_line_contour_invariant 10 domino [(1, 2); (1, 1)] red_px (4, 3)).
  reflexivity.
Defined.

(** C4 as the specification states it fails: tracing the 1x2 block succeeds with a
    contour of two points. *)
Lemma contour_of_two_points_counterexample :
  ~ (forall fuel original line color size,
       get_line fuel original = Done (line, color, size) ->
       (3 <= length line)%nat /\
       (forall k p q, line !! k = Some p -> line !! S k = Some q -> p <> q)).
Proof.
  intros H.
  destruct (H 10%nat domino [(1, 2); (1, 1)] red_px (4, 3) eq_refl) as [Hlen _].
  simpl in Hlen. lia.
Qed.

(** ** C9: an image with no foreground pixel *)

Lemma py_index_nat {A} (l : list A) (k : nat) (x : A) :
  l !! k = Some x -> py_index l (Z.of_nat k) = Done x.
Proof.
  intros H. unfold py_index.
  destruct (Z.leb_spec 0 (Z.of_nat k)); [|lia].
  rewrite Nat2Z.id, H. reflexivity.
Qed.

Lemma py_index_in_range {A} (l : list A) (i : Z) :
  0 <= i < len l -> exists x, l !! Z.to_nat i = Some x /\ py_index l i = Done x.
Proof.
  intros Hi. unfold len in Hi.
  destruct (lookup_lt_is_Some_2 l (Z.to_nat i)) as [x Hx]; [lia|].
  exists x. split; [exact Hx|].
  rewrite <- (Z2Nat.id i) by lia. now apply py_index_nat.
Qed.

Lemma py_index_len {A} (l : list A) : py_index l (len l) = Raised IndexError.
Proof.
  unfold py_index, len. destruct (Z.leb_spec 0 (Z.of_nat (length l))); [|lia].
  rewrite Nat2Z.id, lookup_ge_None_2 by lia. reflexivity.
Qed.

Lemma Forall_range (n : Z) : Forall (fun i => 0 <= i < n) (range n).
Proof.
  unfold range. apply Forall_forall. intros i Hi.
  apply list_elem_of_In, in_map_iff in Hi as (k & <- & Hk).
  apply in_seq in Hk. lia.
Qed.

Lemma find_in_row_transparent pic i row js :
  py_index pic i = Done row ->
  Forall (fun px => alpha px = 0) row ->
  Forall (fun j => 0 <= j < len row) js ->
  find_in_row pic i js = Done None.
Proof.
  intros Hrow Hblank Hjs. induction Hjs as [|j js Hj _ IH]; [reflexivity|].
  simpl. unfold getitem2. rewrite (bind_Done_eq _ _ _ Hrow).
  destruct (py_index_in_range row j Hj) as (px & Hpx & ->). simpl.
  rewrite Forall_lookup in Hblank. rewrite (Hblank _ _ Hpx). exact IH.
Qed.

Lemma find_in_rows_transparent pic row0 rows :
  pic !! 0%nat = Some row0 ->
  rectangular (length row0) pic ->
  transparent pic ->
  Forall (fun i => 0 <= i < len pic) rows ->
  find_in_rows pic rows = Done None.
Proof.
  intros H0 Hrect Hblank Hrows.
  induction Hrows as [|i rows Hi _ IH]; [reflexivity|].
  simpl. rewrite (bind_Done_eq _ _ _ (py_index_nat pic 0 row0 H0)).
  destruct (py_index_in_range pic i Hi) as (row & Hrow & Hidx).
  unfold rectangular in Hrect. rewrite Forall_lookup in Hrect.
  unfold transparent in Hblank. rewrite Forall_lookup in Hblank.
  rewrite (find_in_row_transparent pic i row).
  - exact IH.
  - exact Hidx.
  - exact (Hblank _ _ Hrow).
  - unfold len. rewrite (Hrect _ _ Hrow). apply Forall_range.
Qed.

Lemma find_first_transparent pic row0 :
  pic !! 0%nat = Some row0 ->
  rectangular (length row0) pic ->
  transparent pic ->
  find_first pic = Done (len pic, len row0).
Proof.
  intros H0 Hrect Hblank. unfold find_first.
  rewrite (find_in_rows_transparent pic row0); auto using Forall_range.
  simpl. rewrite (bind_Done_eq _ _ _ (py_index_nat pic 0 row0 H0)).
  reflexivity.
Qed.

Lemma hstack_columns (l : ndarray) :
  np_hstack (np_zeros (length l) 1) l (np_zeros (length l) 1)
  = map (fun row => BLANK :: row ++ [BLANK]) l.
Proof.
  unfold np_hstack, np_zeros. induction l as [|row l IH]; [reflexivity|].
  simpl. f_equal. exact IH.
Qed.

Lemma pad_spec original row0 :
  original !! 0%nat = Some row0 ->
  pad original
  = Done (replicate (length row0 + 2) BLANK
            :: map (fun row => BLANK :: row ++ [BLANK]) original
            ++ [replicate (length row0 + 2) BLANK],
          len row0 + 2, len original + 2).
Proof.
  intros H0. unfold pad.
  rewrite (bind_Done_eq _ _ _ (py_index_nat original 0 row0 H0)).
  rewrite hstack_columns. unfold np_vstack, np_zeros, len. simpl.
  do 2 f_equal; [f_equal|]; lia.
Qed.

(** C9.  An image all of whose pixels are transparent does not reach the
    [exit(1)] of the untraceable-shape error: [find_first] returns the
    position (height, width) of the padded image, which is outside it, and
    the read of [padded[i][j]] at that position raises [IndexError], which
    is how [get_line] ends, whatever the fuel. *)
Theorem transparent_image_raises_IndexError fuel original w :
  original <> [] ->
  rectangular w original ->
  transparent original ->
  exists padded,
    pad original = Done (padded, Z.of_nat w + 2, len original + 2) /\
    find_first padded = Done (len original + 2, Z.of_nat w + 2) /\
    getitem2 padded (len original + 2) (Z.of_nat w + 2) = Raised IndexError /\
    get_line fuel original = Raised IndexError /\
    get_line fuel original <> Raised (SystemExit 1).
Proof.
  intros Hne Hrect Hblank.
  destruct original as [|row0 rest] eqn:Eo; [congruence|]. rewrite <- Eo in *.
  assert (H0 : original !! 0%nat = Some row0) by now rewrite Eo.
  assert (Hw : length row0 = w).
  { unfold rectangular in Hrect. rewrite Forall_lookup in Hrect. eauto. }
  pose proof (pad_spec original row0 H0) as Hpad.
  set (padded := replicate (length row0 + 2) BLANK
                   :: map (fun row => BLANK :: row ++ [BLANK]) original
                   ++ [replicate (length row0 + 2) BLANK]) in *.
  assert (Hlen : len padded = len original + 2).
  { unfold padded, len. simpl. rewrite length_app, length_map. simpl. lia. }
  assert (Hrow : len (replicate (length row0 + 2) BLANK) = Z.of_nat w + 2).
  { unfold len. rewrite length_replicate. lia. }
  assert (Hrect' : rectangular (length (replicate (length row0 + 2) BLANK)) padded).
  { unfold rectangular, padded. rewrite length_replicate.
    apply Forall_cons. split; [apply length_replicate|].
    apply Forall_app. split.
    - apply Forall_map. eapply Forall_impl; [exact Hrect|].
      intros row Hr. simpl in *. rewrite length_app. simpl. lia.
    - apply Forall_cons. split; [apply length_replicate|constructor]. }
  assert (Hblank' : transparent padded).
  { assert (Hz : Forall (fun px => alpha px = 0) (replicate (length row0 + 2) BLANK)).
    { apply Forall_replicate. reflexivity. }
    unfold transparent, padded. apply Forall_cons. split; [exact Hz|].
    apply Forall_app. split.
    - apply Forall_map. eapply Forall_impl; [exact Hblank|].
      intros row Hr. simpl. apply Forall_cons. split; [reflexivity|].
      apply Forall_app. split; [exact Hr|]. repeat constructor.
    - apply Forall_cons. split; [exact Hz|constructor]. }
  assert (Hfirst : find_first padded = Done (len original + 2, Z.of_nat w + 2)).
  { rewrite (find_first_transparent padded (replicate (length row0 + 2) BLANK));
      auto. now rewrite Hlen, Hrow. }
  assert (Hget : getitem2 padded (len original + 2) (Z.of_nat w + 2) = Raised IndexError).
  { unfold getitem2. rewrite <- Hlen, py_index_len. reflexivity. }
  assert (Hline : get_line fuel original = Raised IndexError).
  { unfold get_line. rewrite Hpad. simpl.
    replace (len row0) with (Z.of_nat w) by (unfold len; lia).
    rewrite Hfirst. simpl. rewrite Hget. reflexivity. }
  exists padded. rewrite Hpad. replace (len row0) with (Z.of_nat w) by (unfold len; lia).
  repeat split; auto. rewrite Hline. discriminate.
Qed.

Lemma transparent_image_raises_IndexError_witness :
  exists padded,
    pad [[BLANK; BLANK]] = Done (padded, 4, 3) /\
    find_first padded = Done (3, 4) /\
    getitem2 padded 3 4 = Raised IndexError /\
    get_line 10 [[BLANK; BLANK]] = Raised IndexError /\
    get_line 10 [[BLANK; BLANK]] <> Raised (SystemExit 1).
Proof.
  apply (transparent_image_raises_IndexError 10 [[BLANK; BLANK]] 2).
  - discriminate.
  - repeat constructor.
  - repeat constructor.
Defined.

(** ** C10: the flood fill stays inside the image *)

Lemma fill_step_size color st :
  width (canvas (fill_step color st)) = width (canvas st) /\
  height (canvas (fill_step color st)) = height (canvas st).
Proof.
  unfold fill_step. destruct (stack st) as [|[x y] rest]; [auto|].
  destruct (inside (canvas st) x y); [|auto].
  destruct (rgba_eqb (getpixel (canvas st) (x, y)) WHITE); auto.
Qed.

Lemma inside_same_size img img' x y :
  width img' = width img -> height img' = height img ->
  inside img' x y = inside img x y.
Proof. unfold inside. intros -> ->. reflexivity. Qed.

Lemma fill_step_inv img color st : fill_inv img st -> fill_inv img (fill_step color st).
Proof.
  intros (Hw & Hh & Hacc). unfold fill_inv.
  destruct (fill_step_size color st) as [Hw' Hh'].
  rewrite Hw', Hh'. split; [exact Hw|]. split; [exact Hh|].
  unfold fill_step. destruct (stack st) as [|[x y] rest]; [exact Hacc|].
  destruct (inside (canvas st) x y) eqn:Hin; [|exact Hacc].
  rewrite (inside_same_size img (canvas st) x y Hw Hh) in Hin.
  destruct (rgba_eqb (getpixel (canvas st) (x, y)) WHITE); simpl;
    apply Forall_app; (split; [exact Hacc|]); repeat constructor; exact Hin.
Qed.

Lemma fill_run_inv img color n st : fill_inv img st -> fill_inv img (fill_run n color st).
Proof.
  intros H. induction n as [|n IH]; [exact H|].
  unfold fill_run in *. simpl. now apply fill_step_inv.
Qed.

Lemma fill_run_step n color st :
  fill_run (S n) color st = fill_run n color (fill_step color st).
Proof. unfold fill_run. now rewrite Nat.iter_succ_r. Qed.

Lemma fill_loop_is_run fuel : forall color st st',
  fill_loop fuel color st = Done st' ->
  exists n, st' = fill_run n color st /\ stack st' = [].
Proof.
  induction fuel as [|fuel IH]; intros color st st' H; simpl in H;
    destruct (stack st) as [|p rest] eqn:Es; try discriminate.
  - injection H as <-. exists 0%nat. auto.
  - injection H as <-. exists 0%nat. auto.
  - apply IH in H as (n & -> & Hn). exists (S n).
    now rewrite fill_run_step.
Qed.

(** C10.  From any canvas, seed and fill colour, after any number of
    iterations every [getpixel] and [putpixel] made so far was at a position
    inside the canvas; a run that ends is such a sequence of iterations; and
    with the seed outside the canvas the run ends at once, without any
    access, returning the canvas unchanged. *)
Theorem flood_fill_stays_inside img xy color :
  (forall n, Forall (access_inside img)
               (accesses (fill_run n color (FillState img [xy] [])))) /\
  (forall fuel img', flood_fill fuel img xy color = Done img' ->
     exists n, stack (fill_run n color (FillState img [xy] [])) = [] /\
               canvas (fill_run n color (FillState img [xy] [])) = img') /\
  (inside img xy.1 xy.2 = false ->
     (forall fuel, flood_fill (S fuel) img xy color = Done img) /\
     (forall n, accesses (fill_run n color (FillState img [xy] [])) = [])).
Proof.
  split; [|split].
  - intros n. apply (fill_run_inv img color n). repeat split. constructor.
  - intros fuel img' H. unfold flood_fill in H. inv_bind H.
    injection H as <-. apply fill_loop_is_run in Ha as (n & -> & Hn). eauto.
  - intros Hout.
    assert (Hstep : fill_step color (FillState img [xy] []) = FillState img [] []).
    { unfold fill_step. simpl. destruct xy as [x y]. simpl in *. now rewrite Hout. }
    split.
    + intros fuel. unfold flood_fill. simpl. rewrite Hstep.
      destruct fuel; reflexivity.
    + intros n. destruct n as [|n]; [reflexivity|].
      rewrite fill_run_step, Hstep. clear. induction n as [|n IH]; [reflexivity|].
      rewrite fill_run_step. exact IH.
Qed.

Lemma flood_fill_stays_inside_witness :
  (forall fuel, flood_fill (S fuel) (Image_new 2 2 WHITE) (5, 5) red_px
                = Done (Image_new 2 2 WHITE)) /\
  (forall n, accesses (fill_run n red_px (FillState (Image_new 2 2 WHITE) [(5, 5)] []))
             = []).
Proof.
  apply (proj2 (proj2 (flood_fill_stays_inside (Image_new 2 2 WHITE) (5, 5) red_px))).
  reflexivity.
Defined.

(** ** C8: termination of the flood fill *)

Lemma elem_of_coords img x y : (x, y) ∈ coords img <-> inside img x y = true.
Proof.
  unfold coords, inside. rewrite !andb_true_iff, !Z.leb_le, !Z.ltb_lt.
  rewrite list_elem_of_bind. split.
  - intros (y' & Hx & Hy). apply list_elem_of_bind in Hx as (x' & Hxy & Hx).
    apply list_elem_of_singleton in Hxy. injection Hxy as -> ->.
    apply elem_of_seqZ in Hx, Hy. lia.
  - intros H. exists y. split; [|apply elem_of_seqZ; lia].
    apply list_elem_of_bind. exists x. split; [apply list_elem_of_singleton; reflexivity|].
    apply elem_of_seqZ. lia.
Qed.

Lemma NoDup_coords img : NoDup (coords img).
Proof.
  unfold coords. apply NoDup_bind; [| |apply NoDup_seqZ].
  - intros y1 y2 p _ _ H1 H2.
    apply list_elem_of_bind in H1 as (x1 & H1 & _).
    apply list_elem_of_bind in H2 as (x2 & H2 & _).
    apply list_elem_of_singleton in H1, H2. congruence.
  - intros y _. apply NoDup_bind; [| |apply NoDup_seqZ].
    + intros x1 x2 p _ _ H1 H2.
      apply list_elem_of_singleton in H1, H2. congruence.
    + intros x _. apply NoDup_singleton.
Qed.

Lemma filter_agree {A} (f g : A -> bool) (l : list A) :
  (forall q, q ∈ l -> g q = f q) -> List.filter g l = List.filter f l.
Proof.
  induction l as [|a l IH]; intros H; [reflexivity|]. simpl.
  rewrite (H a) by constructor. rewrite IH; [reflexivity|].
  intros q Hq. apply H. now constructor.
Qed.

(** Switching one element of a duplicate-free list off shortens the
    filtered list by one. *)
Lemma filter_switch_off {A} (f g : A -> bool) (l : list A) (p : A) :
  NoDup l -> p ∈ l -> f p = true -> g p = false ->
  (forall q, q <> p -> g q = f q) ->
  S (length (List.filter g l)) = length (List.filter f l).
Proof.
  intros Hnd Hp Hf Hg Hother. induction Hnd as [|a l Ha Hnd IH]; [inversion Hp|].
  simpl. apply elem_of_cons in Hp as [<-|Hp].
  - rewrite Hf, Hg. simpl. f_equal. f_equal. apply filter_agree.
    intros q Hq. apply Hother. intros ->. contradiction.
  - assert (a <> p) by (intros ->; contradiction).
    rewrite (Hother a) by assumption. destruct (f a); simpl; auto.
Qed.

Lemma is_white_putpixel img xy color q :
  is_white (putpixel img xy color) q
  = if point_eqb q xy then rgba_eqb (clip color) WHITE else is_white img q.
Proof.
  unfold is_white, getpixel, putpixel, point_eqb. simpl.
  destruct ((q.1 =? xy.1) && (q.2 =? xy.2)); reflexivity.
Qed.

Lemma white_count_putpixel img xy color :
  inside img xy.1 xy.2 = true -> is_white img xy = true ->
  rgba_eqb (clip color) WHITE = false ->
  S (white_count (putpixel img xy color)) = white_count img.
Proof.
  intros Hin Hwhite Hcolor. unfold white_count.
  change (coords (putpixel img xy color)) with (coords img).
  apply (filter_switch_off _ _ _ xy).
  - apply NoDup_coords.
  - destruct xy. now apply elem_of_coords.
  - exact Hwhite.
  - rewrite is_white_putpixel.
    now rewrite (proj2 (point_eqb_eq xy xy) eq_refl).
  - intros q Hq. rewrite is_white_putpixel.
    destruct (point_eqb q xy) eqn:E; [|reflexivity].
    apply point_eqb_eq in E. contradiction.
Qed.

(** One iteration on a non-empty stack, with a fill colour that is not
    stored as opaque white: either it writes and there is one opaque-white
    pixel less, or it writes nothing and the stack has lost its top. *)
Lemma fill_step_cases color st n rest :
  rgba_eqb (clip color) WHITE = false ->
  stack st = n :: rest ->
  (accesses (fill_step color st) = accesses st ++ [Read n; Write n] /\
   S (white_count (canvas (fill_step color st))) = white_count (canvas st) /\
   stack (fill_step color st) = four_neighbours n ++ rest) \/
  (~ In (Write n) (skipn (length (accesses st)) (accesses (fill_step color st))) /\
   canvas (fill_step color st) = canvas st /\
   stack (fill_step color st) = rest).
Proof.
  intros Hcolor Hs. unfold fill_step. rewrite Hs. destruct n as [x y].
  destruct (inside (canvas st) x y) eqn:Hin.
  - destruct (rgba_eqb (getpixel (canvas st) (x, y)) WHITE) eqn:Hw.
    + left. simpl. split; [reflexivity|]. split; [|reflexivity].
      now apply white_count_putpixel.
    + right. simpl. rewrite drop_app_length. simpl.
      split; [|auto]. intros [H|[]]. discriminate.
  - right. simpl. rewrite drop_all. simpl. auto.
Qed.

Lemma fill_loop_terminates color : rgba_eqb (clip color) WHITE = false ->
  forall fuel st,
    (4 * white_count (canvas st) + length (stack st) <= fuel)%nat ->
    exists st', fill_loop fuel color st = Done st'.
Proof.
  intros Hcolor. induction fuel as [|fuel IH]; intros st Hfuel.
  - simpl. destruct (stack st); [eauto|simpl in Hfuel; lia].
  - simpl. destruct (stack st) as [|n rest] eqn:Hs; [eauto|].
    apply IH.
    destruct (fill_step_cases color st n rest Hcolor Hs)
      as [(_ & Hc & ->)|(_ & -> & ->)]; simpl in *; lia.
Qed.

Lemma four_neighbours_sym p q : In q (four_neighbours p) -> In p (four_neighbours q).
Proof.
  destruct p as [x y], q as [u v]. unfold four_neighbours. simpl.
  intros [H|[H|[H|[H|[]]]]]; injection H as <- <-.
  - right. left. f_equal; lia.
  - left. f_equal; lia.
  - do 3 right. left. f_equal; lia.
  - do 2 right. left. f_equal; lia.
Qed.

(** A fill colour that is stored as opaque white changes the colour of no
    pixel. *)
Lemma fill_step_white color st :
  clip color = WHITE ->
  (forall q, is_white (canvas (fill_step color st)) q = is_white (canvas st) q) /\
  (forall x y, inside (canvas (fill_step color st)) x y = inside (canvas st) x y).
Proof.
  intros Hclip. split.
  - intros q. unfold fill_step. destruct (stack st) as [|[x y] rest]; [reflexivity|].
    destruct (inside (canvas st) x y); [|reflexivity].
    destruct (rgba_eqb (getpixel (canvas st) (x, y)) WHITE) eqn:Hw; [|reflexivity].
    simpl. rewrite is_white_putpixel, Hclip.
    destruct (point_eqb q (x, y)) eqn:E; [|reflexivity].
    apply point_eqb_eq in E. subst q. symmetry. exact Hw.
  - intros x y. destruct (fill_step_size color st) as [Hw Hh].
    now apply inside_same_size.
Qed.

Lemma white_pair_step color st p :
  clip color = WHITE ->
  white_pair (canvas st) p -> white_pair (canvas (fill_step color st)) p.
Proof.
  intros Hclip. destruct (fill_step_white color st Hclip) as [Hw Hi].
  intros (Hin & Hwhite & q & Hq & Hqin & Hqw).
  unfold white_pair. rewrite Hi, Hw. split; [exact Hin|]. split; [exact Hwhite|].
  exists q. rewrite Hi, Hw. auto.
Qed.

Lemma has_white_pair_step color st :
  clip color = WHITE -> has_white_pair st -> has_white_pair (fill_step color st).
Proof.
  intros Hclip (p & Hp & Hpair). pose proof (white_pair_step color st) as Hkeep.
  specialize (fun p => Hkeep p Hclip).
  unfold has_white_pair. revert Hkeep. unfold fill_step.
  destruct (stack st) as [|[x y] rest] eqn:Hs; [destruct Hp|].
  destruct Hpair as (Hin & Hwhite & q & Hq & Hqin & Hqw).
  destruct Hp as [<-|Hp].
  - simpl in Hin. rewrite Hin. unfold is_white in Hwhite. rewrite Hwhite.
    intros Hkeep. exists q. split.
    + simpl. simpl in Hq. tauto.
    + apply Hkeep. unfold white_pair. split; [exact Hqin|]. split; [exact Hqw|].
      exists (x, y). split; [now apply four_neighbours_sym|]. auto.
  - assert (Hpair : white_pair (canvas st) p).
    { unfold white_pair. eauto 8. }
    destruct (inside (canvas st) x y);
      [destruct (rgba_eqb (getpixel (canvas st) (x, y)) WHITE)|];
      intros Hkeep; exists p; (split; [simpl; tauto|now apply Hkeep]).
Qed.

Lemma fill_loop_white_diverges color fuel : clip color = WHITE -> forall st,
  has_white_pair st -> fill_loop fuel color st = OutOfFuel.
Proof.
  intros Hclip. induction fuel as [|fuel IH]; intros st H; simpl.
  - destruct H as (p & Hp & _). destruct (stack st); [destruct Hp|reflexivity].
  - pose proof (has_white_pair_step color st Hclip H) as H'.
    destruct H as (p & Hp & _). destruct (stack st); [destruct Hp|]. auto.
Qed.

(** C8 (as amended).  The fill colour counts as Pillow stores it, each
    channel (an int that Pillow accepts) clamped to 0..255.  When the stored
    colour is not opaque white the flood fill ends, from any canvas and seed,
    within 4 * (number of opaque-white pixels) + 1 iterations: an iteration
    that writes a pixel leaves one opaque-white pixel less and puts four
    positions on the stack in place of its top, an iteration that writes
    nothing only takes the top off the stack.  When the stored colour is
    opaque white, as for (255, 255, 255, 255) and for (300, 255, 255, 255), a
    seed that is an opaque-white pixel of the canvas with an opaque-white
    pixel of the canvas next to it makes the loop run for ever. *)
Theorem flood_fill_termination img xy color :
  int_channels color ->
  (clip color <> WHITE ->
     (forall fuel, (4 * white_count img + 1 <= fuel)%nat ->
        exists img', flood_fill fuel img xy color = Done img') /\
     (forall st n rest, stack st = n :: rest ->
        (accesses (fill_step color st) = accesses st ++ [Read n; Write n] /\
         S (white_count (canvas (fill_step color st))) = white_count (canvas st) /\
         stack (fill_step color st) = four_neighbours n ++ rest) \/
        (~ In (Write n) (skipn (length (accesses st)) (accesses (fill_step color st))) /\
         canvas (fill_step color st) = canvas st /\
         stack (fill_step color st) = rest))) /\
  (clip color = WHITE -> white_pair img xy ->
     forall fuel, flood_fill fuel img xy color = OutOfFuel).
Proof.
  intros _. split.
  - intros Hne.
    assert (Hcolor : rgba_eqb (clip color) WHITE = false).
    { destruct (rgba_eqb (clip color) WHITE) eqn:E; [|reflexivity].
      apply rgba_eqb_eq in E. contradiction. }
    split.
    + intros fuel Hfuel. unfold flood_fill.
      destruct (fill_loop_terminates color Hcolor fuel (FillState img [xy] []))
        as [st' ->]; [simpl; lia|]. simpl. eauto.
    + intros st n rest. now apply fill_step_cases.
  - intros Hclip Hpair fuel. unfold flood_fill.
    rewrite fill_loop_white_diverges; [reflexivity|exact Hclip|].
    exists xy. simpl. auto.
Qed.

Lemma flood_fill_termination_witness :
  (exists img', flood_fill 17 (Image_new 2 2 WHITE) (0, 0) red_px = Done img') /\
  (forall fuel,
     flood_fill fuel (Image_new 2 2 WHITE) (0, 0) (RGBA 300 255 255 255) = OutOfFuel).
Proof.
  split.
  - apply (proj1 (flood_fill_termination (Image_new 2 2 WHITE) (0, 0) red_px
                    ltac:(vm_compute; intuition discriminate))).
    + discriminate.
    + vm_compute. lia.
  - apply (proj2 (flood_fill_termination (Image_new 2 2 WHITE) (0, 0)
                    (RGBA 300 255 255 255)
                    ltac:(vm_compute; intuition discriminate))).
    + reflexivity.
    + unfold white_pair. split; [reflexivity|]. split; [reflexivity|].
      exists (0, 1). split; [now left|]. split; reflexivity.
Defined.

(** C8 as the specification states it fails in its last sentence: on a canvas of a
    single opaque-white pixel, filling from that pixel with opaque white
    ends after five iterations. *)
Lemma white_fill_terminates_counterexample :
  ~ (forall img xy,
       inside img xy.1 xy.2 = true -> is_white img xy = true ->
       forall fuel, flood_fill fuel img xy WHITE = OutOfFuel).
Proof.
  intros H. specialize (H (Image_new 1 1 WHITE) (0, 0) eq_refl eq_refl 5%nat).
  vm_compute in H. discriminate H.
Qed.

(** ** C5: resampling *)

(** *** The sign of the cursor *)

Lemma binary_round_aux_sign s m e l :
  match binary_round_aux prec emax s m e l with
  | S754_zero s' | S754_infinity s' | S754_finite s' _ _ => s' = s
  | S754_nan => True
  end.
Proof.
  unfold binary_round_aux.
  destruct (shr_fexp prec emax m e l) as [mrs' e'].
  destruct (shr_fexp prec emax _ e' loc_Exact) as [mrs'' e''].
  destruct (shr_m mrs''); [reflexivity| |exact I].
  destruct (Z.leb e'' (Z.sub emax prec)); reflexivity.
Qed.

Lemma binary_round_sign s m e :
  match binary_round prec emax s m e with
  | S754_zero s' | S754_infinity s' | S754_finite s' _ _ => s' = s
  | S754_nan => True
  end.
Proof.
  unfold binary_round. destruct (shl_align _ _ _) as [mz ez].
  apply binary_round_aux_sign.
Qed.

Lemma float_of_int_positive z : 0 <= z -> positive_sign (float_of_int z).
Proof.
  intros Hz. unfold float_of_int, binary_normalize.
  destruct z as [|p|p]; [reflexivity| |lia].
  apply (binary_round_sign false).
Qed.

Lemma fdiv_positive x y :
  positive_sign x -> positive_sign y -> positive_sign (fdiv x y).
Proof.
  unfold fdiv, SFdiv.
  destruct x as [sx|sx| |sx mx ex], y as [sy|sy| |sy my ey]; simpl;
    intros Hx Hy; subst; try reflexivity; try exact I.
  destruct (SFdiv_core_binary _ _ _ _ _ _) as [[mz ez] lz].
  apply (binary_round_aux_sign false).
Qed.

Lemma fadd_positive x y :
  positive_sign x -> positive_sign y -> positive_sign (fadd x y).
Proof.
  unfold fadd, SFadd.
  destruct x as [sx|sx| |sx mx ex], y as [sy|sy| |sy my ey]; simpl;
    intros Hx Hy; subst; try reflexivity; try exact I.
  apply (binary_round_sign false).
Qed.

(** A cursor of positive sign that is below [n] truncates to an index
    below [n]. *)
Lemma cursor_index i n :
  positive_sign i -> float_lt_int i n = true ->
  exists k, int_of_float i = Done k /\ 0 <= k < n.
Proof.
  destruct i as [s|s| |s m e]; simpl; intros Hs Hlt; subst; try discriminate.
  - exists 0. split; [reflexivity|]. apply Z.ltb_lt in Hlt. lia.
  - exists (Z.shiftl (Zpos m) e). split; [reflexivity|].
    destruct (Z.leb_spec 0 e) as [He|He]; apply Z.ltb_lt in Hlt; simpl in Hlt.
    + rewrite Z.shiftl_mul_pow2 by lia. split; [|exact Hlt].
      apply Z.mul_nonneg_nonneg; [lia|]. apply Z.pow_nonneg. lia.
    + replace e with (- (- e)) by lia. rewrite Z.shiftl_opp_r.
      rewrite Z.shiftr_div_pow2 by lia.
      assert (0 < 2 ^ (- e)) by (apply Z.pow_pos_nonneg; lia).
      split; [apply Z.div_pos; lia|].
      apply Z.div_lt_upper_bound; lia.
Qed.

(** *** The store *)

Lemma deref_assign_same a l s : deref a (assign a l s) = l.
Proof. destruct a; reflexivity. Qed.

Lemma deref_assign_other a b l s : a <> b -> deref b (assign a l s) = deref b s.
Proof. destruct a, b; intros H; try reflexivity; contradiction. Qed.

Lemma py_del_in_range {A} (l : list A) (k : Z) :
  0 <= k < len l ->
  py_del l k = Done (delete (Z.to_nat k) l) /\
  len (delete (Z.to_nat k) l) = len l - 1.
Proof.
  intros Hk. unfold py_del.
  destruct (Z.leb_spec 0 k); [|lia]. destruct (Z.ltb_spec k (len l)); [|lia].
  split; [reflexivity|]. unfold len in *.
  rewrite length_delete; [lia|]. apply lookup_lt_is_Some_2. lia.
Qed.

(** *** The two loops *)

(** One pass deletes points of the longer line only, never below the length
    of the shorter one, and at least one when the cursor starts inside. *)
Lemma decimate_pass_spec a b inc :
  a <> b -> positive_sign inc ->
  forall fuel i s,
    positive_sign i ->
    len (deref b s) < len (deref a s) ->
    len (deref a s) - len (deref b s) <= Z.of_nat fuel ->
    exists s',
      decimate_pass fuel a b inc i s = Done s' /\
      deref b s' = deref b s /\
      deref a s' `sublist_of` deref a s /\
      len (deref b s) <= len (deref a s') /\
      (float_lt_int i (len (deref a s)) = true ->
       len (deref a s') < len (deref a s)).
Proof.
  intros Hab Hinc. induction fuel as [|fuel IH]; intros i s Hi Hlen Hfuel; [lia|].
  simpl. destruct (float_lt_int i (len (deref a s))) eqn:Hlt.
  - destruct (cursor_index i _ Hi Hlt) as (k & -> & Hk). simpl.
    destruct (py_del_in_range (deref a s) k Hk) as [-> Hdel]. simpl.
    rewrite deref_assign_same, (deref_assign_other a b) by assumption.
    destruct (Z.eqb_spec (len (delete (Z.to_nat k) (deref a s))) (len (deref b s)))
      as [Heq|Hne].
    + eexists. split; [reflexivity|].
      rewrite deref_assign_same, (deref_assign_other a b) by assumption.
      split; [reflexivity|]. split; [apply sublist_delete|]. lia.
    + destruct (IH (fadd i inc) (assign a (delete (Z.to_nat k) (deref a s)) s))
        as (s' & -> & Hb & Hsub & Hge & _).
      * now apply fadd_positive.
      * rewrite deref_assign_same, (deref_assign_other a b) by assumption. lia.
      * rewrite deref_assign_same, (deref_assign_other a b) by assumption. lia.
      * rewrite deref_assign_same, (deref_assign_other a b) in * by assumption.
        exists s'. split; [reflexivity|]. split; [exact Hb|].
        split; [etransitivity; [exact Hsub|apply sublist_delete]|].
        split; [exact Hge|]. intros _.
        apply sublist_length in Hsub. unfold len in *. lia.
  - exists s. split; [reflexivity|]. split; [reflexivity|].
    split; [reflexivity|]. split; [lia|discriminate].
Qed.

Lemma resample_loop_spec a b :
  a <> b ->
  forall fuel s,
    len (deref b s) <= len (deref a s) ->
    len (deref a s) - len (deref b s) < Z.of_nat fuel ->
    exists s',
      resample_loop fuel a b s = Done s' /\
      len (deref a s') = len (deref b s') /\
      deref b s' = deref b s /\
      deref a s' `sublist_of` deref a s.
Proof.
  intros Hab. induction fuel as [|fuel IH]; intros s Hlen Hfuel; [lia|].
  simpl. destruct (Z.eqb_spec (len (deref a s)) (len (deref b s))) as [Heq|Hne];
    simpl.
  - exists s. auto.
  - assert (H0 : 0 <= len (deref b s)) by (unfold len; lia).
    assert (Hinc : positive_sign
                     (fdiv (float_of_int (len (deref a s)))
                           (float_of_int (len (deref a s) - len (deref b s))))).
    { apply fdiv_positive; apply float_of_int_positive; lia. }
    destruct (decimate_pass_spec a b _ Hab Hinc fuel f0 s eq_refl)
      as (s1 & -> & Hb & Hsub & Hge & Hless); [lia..|].
    simpl.
    assert (Hlt : len (deref a s1) < len (deref a s)).
    { apply Hless. simpl. apply Z.ltb_lt. lia. }
    destruct (IH s1) as (s' & -> & Heq' & Hb' & Hsub'); [rewrite Hb; lia ..|].
    exists s'. split; [reflexivity|]. split; [exact Heq'|].
    split; [congruence|]. etransitivity; eassumption.
Qed.

(** C5.  With more fuel than the difference of the two lengths, resampling
    ends and returns two lines of the length of the shorter one; a line that
    is not the longer one is returned as it was (both are when the lengths
    are equal), and each returned line is a subsequence of the line it comes
    from. *)
Theorem resample_equalises fuel (original final : list point) :
  Z.abs (len original - len final) < Z.of_nat fuel ->
  exists s,
    resample fuel (Lines original final) = Done s /\
    length (original_line s) = Nat.min (length original) (length final) /\
    length (final_line s) = Nat.min (length original) (length final) /\
    (length original <= length final -> original_line s = original)%nat /\
    (length final <= length original -> final_line s = final)%nat /\
    original_line s `sublist_of` original /\
    final_line s `sublist_of` final.
Proof.
  intros Hfuel. unfold resample, max_by_len, min_by_len. simpl.
  destruct (Z.ltb_spec (len original) (len final)) as [Hlt|Hge].
  - destruct (Z.ltb_spec (len final) (len original)) as [?|_]; [lia|].
    destruct (resample_loop_spec FinalLine OriginalLine ltac:(discriminate)
                fuel (Lines original final))
      as (s & -> & Heq & Hb & Hsub); simpl in *; [lia..|].
    exists s. unfold len in *. subst. repeat split; auto; lia.
  - destruct (Z.ltb_spec (len final) (len original)) as [Hlt|Hle].
    + destruct (resample_loop_spec OriginalLine FinalLine ltac:(discriminate)
                  fuel (Lines original final))
        as (s & -> & Heq & Hb & Hsub); simpl in *; [lia..|].
      exists s. unfold len in *. subst. repeat split; auto; lia.
    + assert (Heq : len original = len final) by lia.
      destruct fuel as [|fuel]; [lia|]. simpl.
      rewrite Z.eqb_refl. simpl.
      exists (Lines original final). unfold len in *. simpl.
      repeat split; auto; lia.
Qed.

Lemma resample_equalises_witness :
  let original : list point := [(0, 0); (0, 1); (0, 2); (0, 3); (0, 4)] in
  let final : list point := [(5, 5); (6, 6); (7, 7)] in
  exists s,
    resample 3 (Lines original final) = Done s /\
    length (original_line s) = Nat.min (length original) (length final) /\
    length (final_line s) = Nat.min (length original) (length final) /\
    ((length original <= length final)%nat -> original_line s = original) /\
    ((length final <= length original)%nat -> final_line s = final) /\
    original_line s `sublist_of` original /\
    final_line s `sublist_of` final.
Proof.
  apply (resample_equalises 3 [(0, 0); (0, 1); (0, 2); (0, 3); (0, 4)]
           [(5, 5); (6, 6); (7, 7)]).
  reflexivity.
Defined.

(** ** C6, C2: interpolation *)

(** *** Integers that binary64 holds exactly *)

Lemma digits2_size p : digits2_pos p = Pos.size p.
Proof. induction p; simpl; congruence. Qed.

Lemma fexp_canonical e : -1074 <= e -> fexp prec emax (53 + e) = e.
Proof. unfold fexp, emin, prec, emax. lia. Qed.

(** A mantissa of 53 bits with an exponent in range is left as it is. *)
Lemma binary_round_aux_canonical s m e :
  digits2_pos m = 53%positive -> -1074 <= e <= 971 ->
  binary_round_aux prec emax s (Zpos m) e loc_Exact = S754_finite s m e.
Proof.
  intros Hd He. unfold binary_round_aux, shr_fexp.
  cbn [Zdigits2 shr_record_of_loc].
  rewrite Hd, fexp_canonical by lia. rewrite Z.sub_diag.
  cbn [shr shr_m loc_of_shr_record round_nearest_even Zdigits2 shr_record_of_loc].
  rewrite Hd, fexp_canonical by lia. rewrite Z.sub_diag. cbn [shr shr_m].
  destruct (Z.leb_spec e (Z.sub emax prec)) as [_|H]; [reflexivity|].
  unfold emax, prec in H. lia.
Qed.

Lemma iter_xO_spec p k :
  Zpos (Pos.iter xO p k) = Zpos p * 2 ^ Zpos k /\
  digits2_pos (Pos.iter xO p k) = (digits2_pos p + k)%positive.
Proof.
  induction k as [|k [IHv IHd]] using Pos.peano_ind.
  - simpl. split; [lia|]. now rewrite Pos.add_1_r.
  - rewrite Pos.iter_succ. cbn [digits2_pos]. rewrite IHd, Pos.add_succ_r.
    split; [|reflexivity].
    rewrite Pos2Z.inj_xO, IHv, Pos2Z.inj_succ, Z.pow_succ_r by lia. lia.
Qed.

Lemma digits2_bound p : Zpos p < 2 ^ 53 -> (digits2_pos p <= 53)%positive.
Proof.
  intros Hp. rewrite digits2_size.
  pose proof (Pos.size_le p) as Hle.
  apply Pos2Z.pos_le_pos in Hle. rewrite Pos2Z.inj_pow in Hle.
  destruct (Pos.leb_spec (Pos.size p) 53) as [H|H]; [exact H|exfalso].
  assert (2 ^ 54 <= 2 ^ Zpos (Pos.size p)) by (apply Z.pow_le_mono_r; lia).
  lia.
Qed.

(** The conversion of a positive integer below 2^53: a mantissa of 53 bits
    that holds the integer shifted left. *)
Lemma float_of_pos_exact s p :
  Zpos p < 2 ^ 53 ->
  exists m e,
    binary_round prec emax s p 0 = S754_finite s m e /\
    digits2_pos m = 53%positive /\ -52 <= e <= 0 /\
    Zpos m = Zpos p * 2 ^ (- e).
Proof.
  intros Hp. pose proof (digits2_bound p Hp) as Hd.
  unfold binary_round.
  replace (fexp prec emax (Zpos (digits2_pos p) + 0)) with (Zpos (digits2_pos p) - 53)
    by (unfold fexp, emin, prec, emax; lia).
  unfold shl_align. rewrite Z.sub_0_r.
  destruct (Zpos (digits2_pos p) - 53) as [|k|k] eqn:Ek; [|lia|].
  - exists p, 0. rewrite binary_round_aux_canonical by lia.
    repeat split; lia.
  - destruct (iter_xO_spec p k) as [Hv Hdig].
    exists (Pos.iter xO p k), (Zneg k).
    rewrite binary_round_aux_canonical by lia.
    repeat split; try lia. exact Hv.
Qed.

Lemma float_of_int_exact z :
  exact_int z -> z <> 0 ->
  exists m e,
    float_of_int z = S754_finite (z <? 0) m e /\
    digits2_pos m = 53%positive /\ -52 <= e <= 0 /\
    Zpos m = Z.abs z * 2 ^ (- e).
Proof.
  unfold exact_int, float_of_int, binary_normalize. intros Hz Hne.
  destruct z as [|p|p]; [congruence| |]; apply float_of_pos_exact; exact Hz.
Qed.

Lemma int_of_float_of_int z : exact_int z -> int_of_float (float_of_int z) = Done z.
Proof.
  intros Hz. destruct (Z.eq_dec z 0) as [->|Hne]; [reflexivity|].
  destruct (float_of_int_exact z Hz Hne) as (m & e & -> & _ & He & Hm).
  simpl. f_equal. rewrite Hm.
  replace e with (- (- e)) at 2 by lia. rewrite Z.shiftl_opp_r.
  rewrite Z.shiftr_div_pow2 by lia.
  rewrite Z.div_mul by (apply Z.pow_nonzero; lia).
  destruct z; simpl; lia.
Qed.

Lemma mul_2_52 m : Pos.mul 4503599627370496 m = Pos.iter xO m 52.
Proof. reflexivity. Qed.

Lemma shr_52 m :
  SpecFloat.iter_pos shr_1 52 (Build_shr_record (Zpos (Pos.iter xO m 52)) false false)
  = Build_shr_record (Zpos m) false false.
Proof. reflexivity. Qed.

(** Multiplying by 1.0 changes no value with a mantissa of 53 bits. *)
Lemma fmul_1_canonical s m e :
  digits2_pos m = 53%positive -> -1074 <= e <= 971 ->
  fmul f1 (S754_finite s m e) = S754_finite s m e.
Proof.
  intros Hd He. unfold fmul.
  change f1 with (S754_finite false 4503599627370496 (-52)).
  cbn [SFmul xorb]. rewrite mul_2_52.
  unfold binary_round_aux, shr_fexp.
  cbn [Zdigits2 shr_record_of_loc].
  destruct (iter_xO_spec m 52) as [_ ->]. rewrite Hd.
  replace (fexp prec emax (Zpos (53 + 52) + (-52 + e))) with e
    by (unfold fexp, emin, prec, emax; lia).
  replace (e - (-52 + e)) with 52 by lia.
  cbn [shr]. rewrite shr_52.
  cbn [shr_m loc_of_shr_record round_nearest_even Zdigits2].
  rewrite Hd. replace (-52 + e + 52) with e by lia.
  rewrite fexp_canonical by lia. rewrite Z.sub_diag. cbn [shr shr_m].
  destruct (Z.leb_spec e (Z.sub emax prec)) as [_|H]; [reflexivity|].
  unfold emax, prec in H. lia.
Qed.

Lemma fmul_1_float_of_int z :
  exact_int z -> fmul f1 (float_of_int z) = float_of_int z.
Proof.
  intros Hz. destruct (Z.eq_dec z 0) as [->|Hne]; [reflexivity|].
  destruct (float_of_int_exact z Hz Hne) as (m & e & -> & Hd & He & _).
  apply fmul_1_canonical; [exact Hd|lia].
Qed.

Lemma float_of_int_shape z :
  exact_int z ->
  float_of_int z = S754_zero false \/
  exists s m e, float_of_int z = S754_finite s m e.
Proof.
  intros Hz. destruct (Z.eq_dec z 0) as [->|Hne]; [now left|].
  destruct (float_of_int_exact z Hz Hne) as (m & e & -> & _). eauto.
Qed.

Lemma int_lerp_0 a b :
  exact_int a -> exact_int b ->
  int_of_float (lerp (float_of_int a) (float_of_int b) f0) = Done a.
Proof.
  intros Ha Hb. unfold lerp.
  change (fsub f1 f0) with f1. rewrite (fmul_1_float_of_int a Ha).
  rewrite <- (int_of_float_of_int a Ha).
  destruct (float_of_int_shape a Ha) as [->|(sa & ma & ea & ->)],
           (float_of_int_shape b Hb) as [->|(sb & mb & eb & ->)];
    try destruct sa; try destruct sb; reflexivity.
Qed.

Lemma int_lerp_1 a b :
  exact_int a -> exact_int b ->
  int_of_float (lerp (float_of_int a) (float_of_int b) f1) = Done b.
Proof.
  intros Ha Hb. unfold lerp.
  change (fsub f1 f1) with f0. rewrite (fmul_1_float_of_int b Hb).
  rewrite <- (int_of_float_of_int b Hb).
  destruct (float_of_int_shape a Ha) as [->|(sa & ma & ea & ->)],
           (float_of_int_shape b Hb) as [->|(sb & mb & eb & ->)];
    try destruct sa; try destruct sb; reflexivity.
Qed.

(** *** The endpoints *)

Lemma interpolate_endpoints_lines :
  forall original final : list point,
    length original = length final ->
    Forall exact_point original -> Forall exact_point final ->
    for_each (interpolate_point f0) (zip original final) = Done (map xy_of original) /\
    for_each (interpolate_point f1) (zip original final) = Done (map xy_of final).
Proof.
  induction original as [|[i0 j0] original IH]; intros [|[i1 j1] final] Hlen Ho Hf;
    try discriminate; [split; reflexivity|].
  apply Forall_cons in Ho as [[Hi0 Hj0] Ho]. apply Forall_cons in Hf as [[Hi1 Hj1] Hf].
  simpl in *. destruct (IH final) as [IH0 IH1]; [congruence|assumption..|].
  rewrite !int_lerp_0, !int_lerp_1 by assumption. simpl.
  fold (zip original final). rewrite IH0, IH1. split; reflexivity.
Qed.

(** C6.  For two lines of equal length and two colours, all of whose
    coordinates and channels are integers that binary64 holds exactly (below
    2^53 in absolute value), interpolation at t = 0.0 returns the points of
    the first line, as (x, y) = (column, row), and the colour [c0] with
    alpha 255, and interpolation at t = 1.0 returns the points of the second
    line and the colour [c1] with alpha 255. *)
Theorem interpolate_endpoints (s : lines) (c0 c1 : rgba) :
  length (original_line s) = length (final_line s) ->
  Forall exact_point (original_line s) ->
  Forall exact_point (final_line s) ->
  exact_color c0 -> exact_color c1 ->
  interpolate s f0 = Done (map xy_of (original_line s)) /\
  interpolate_color c0 c1 f0 = Done (RGBA (red c0) (green c0) (blue c0) 255) /\
  interpolate s f1 = Done (map xy_of (final_line s)) /\
  interpolate_color c0 c1 f1 = Done (RGBA (red c1) (green c1) (blue c1) 255).
Proof.
  intros Hlen Ho Hf (Hr0 & Hg0 & Hb0) (Hr1 & Hg1 & Hb1).
  destruct (interpolate_endpoints_lines _ _ Hlen Ho Hf) as [H0 H1].
  unfold interpolate, interpolate_color.
  rewrite H0, H1, !int_lerp_0, !int_lerp_1 by assumption.
  repeat split; reflexivity.
Qed.

Lemma interpolate_endpoints_witness :
  let s := Lines [(1, 2); (2, 2); (2, 1); (1, 1)] [(3, 4); (4, 4); (4, 3); (3, 3)] in
  interpolate s f0 = Done [(2, 1); (2, 2); (1, 2); (1, 1)] /\
  interpolate_color red_px blue_px f0 = Done (RGBA 255 0 0 255) /\
  interpolate s f1 = Done [(4, 3); (4, 4); (3, 4); (3, 3)] /\
  interpolate_color red_px blue_px f1 = Done (RGBA 0 0 255 255).
Proof.
  apply (interpolate_endpoints
           (Lines [(1, 2); (2, 2); (2, 1); (1, 1)] [(3, 4); (4, 4); (4, 3); (3, 3)])
           red_px blue_px).
  - reflexivity.
  - repeat constructor.
  - repeat constructor.
  - repeat constructor.
  - repeat constructor.
Defined.

(** *** Truncation *)

Lemma int_of_float_truncates f z : int_of_float f = Done z -> truncation_of f z.
Proof.
  destruct f as [s|s| |s m e]; simpl; intros H; try discriminate;
    injection H as <-; unfold truncation_of.
  - simpl. split; [auto|discriminate].
  - destruct (Z.leb_spec 0 e) as [He|He].
    + rewrite Z.shiftl_mul_pow2 by lia.
      assert (Hv : 0 < Zpos m * 2 ^ e)
        by (apply Z.mul_pos_pos; [lia|apply Z.pow_pos_nonneg; lia]).
      destruct s; simpl; (destruct (Z.leb_spec 0 e); [|lia]); simpl;
        rewrite ?Z.ltb_lt, ?Z.ltb_ge; revert Hv;
        generalize (Zpos m * 2 ^ e); intros v Hv; split; intros; lia.
    + replace (Z.shiftl (Zpos m) e) with (Z.shiftr (Zpos m) (- e))
        by (rewrite <- Z.shiftl_opp_r; f_equal; lia).
      rewrite Z.shiftr_div_pow2 by lia.
      assert (Hp : 0 < 2 ^ (- e)) by (apply Z.pow_pos_nonneg; lia).
      pose proof (Z.div_mod (Zpos m) (2 ^ (- e)) ltac:(lia)) as Hdm.
      pose proof (Z.mod_pos_bound (Zpos m) (2 ^ (- e)) Hp) as Hmod.
      destruct s; simpl; (destruct (Z.leb_spec 0 e); [lia|]); simpl;
        rewrite ?Z.ltb_lt, ?Z.ltb_ge; revert Hp Hdm Hmod;
        generalize (Zpos m mod 2 ^ (- e)); generalize (Zpos m / 2 ^ (- e));
        generalize (2 ^ (- e)); intros k q r Hp Hdm Hmod; split; intros; nia.
Qed.

Lemma for_each_Forall2 {A B} (f : A -> outcome B) (l : list A) (ys : list B) :
  for_each f l = Done ys -> Forall2 (fun x y => f x = Done y) l ys.
Proof.
  revert ys. induction l as [|x l IH]; simpl; intros ys H.
  - injection H as <-. constructor.
  - inv_bind H. inv_bind H. injection H as <-. constructor; auto.
Qed.


(** *** No overflow *)

Lemma digits2_value p : Zpos p < 2 ^ Zpos (digits2_pos p).
Proof.
  rewrite digits2_size. pose proof (Pos.size_gt p) as H.
  apply Pos2Z.pos_lt_pos in H. now rewrite Pos2Z.inj_pow in H.
Qed.

Lemma digits2_le p k : Zpos p < 2 ^ k -> Zpos (digits2_pos p) <= k.
Proof.
  intros Hp. rewrite digits2_size.
  pose proof (Pos.size_le p) as Hle.
  apply Pos2Z.pos_le_pos in Hle. rewrite Pos2Z.inj_pow in Hle.
  destruct (Z.le_gt_cases (Zpos (Pos.size p)) k) as [H|H]; [exact H|exfalso].
  destruct (Z.le_gt_cases 0 k) as [Hk|Hk].
  - assert (2 ^ (k + 1) <= 2 ^ Zpos (Pos.size p)) by (apply Z.pow_le_mono_r; lia).
    rewrite Z.pow_add_r in * by lia. lia.
  - rewrite Z.pow_neg_r in Hp by lia. lia.
Qed.

Lemma Zdigits2_le m k : 0 <= m < 2 ^ k -> 0 <= k -> Zdigits2 m <= k.
Proof.
  intros [H0 Hm] Hk. destruct m as [|p|p]; simpl; [lia| |lia].
  now apply digits2_le.
Qed.

Lemma Zdigits2_value m : 0 <= m -> m < 2 ^ Zdigits2 m.
Proof.
  intros H. destruct m as [|p|p]; simpl; [lia| |lia]. apply digits2_value.
Qed.

Lemma Zdigits2_nonneg m : 0 <= Zdigits2 m.
Proof. destruct m; simpl; lia. Qed.

Lemma iter_pos_nat {A} (f : A -> A) n : forall x,
  SpecFloat.iter_pos f n x = Nat.iter (Pos.to_nat n) f x.
Proof.
  induction n as [n IH|n IH|]; intros x; cbn [SpecFloat.iter_pos].
  - rewrite !IH, Pos2Nat.inj_xI.
    replace (S (2 * Pos.to_nat n)) with (Pos.to_nat n + S (Pos.to_nat n))%nat by lia.
    now rewrite Nat.iter_add, Nat.iter_succ_r.
  - rewrite !IH, Pos2Nat.inj_xO.
    replace (2 * Pos.to_nat n)%nat with (Pos.to_nat n + Pos.to_nat n)%nat by lia.
    now rewrite Nat.iter_add.
  - reflexivity.
Qed.

Lemma shr_1_digits mrs :
  0 <= shr_m mrs ->
  0 <= shr_m (shr_1 mrs) /\
  Zdigits2 (shr_m (shr_1 mrs)) = Z.max (Zdigits2 (shr_m mrs) - 1) 0.
Proof.
  destruct mrs as [m r s]. simpl. intros Hm.
  destruct m as [|[p|p|]|p]; simpl; try lia.
Qed.

Lemma shr_iter_digits k : forall mrs,
  0 <= shr_m mrs ->
  0 <= shr_m (Nat.iter k shr_1 mrs) /\
  Zdigits2 (shr_m (Nat.iter k shr_1 mrs))
  = Z.max (Zdigits2 (shr_m mrs) - Z.of_nat k) 0.
Proof.
  induction k as [|k IH]; intros mrs Hm.
  - simpl. pose proof (Zdigits2_nonneg (shr_m mrs)). lia.
  - simpl. destruct (IH mrs Hm) as [H0 Hd].
    destruct (shr_1_digits _ H0) as [H1 ->]. rewrite Hd. lia.
Qed.

Lemma shr_record_of_loc_m m l : shr_m (shr_record_of_loc m l) = m.
Proof. destruct l as [|[]]; reflexivity. Qed.

(** One alignment step of the rounding: the mantissa stays non-negative,
    and neither the magnitude nor the exponent grows beyond the bounds. *)
Lemma shr_fexp_bound m e l B :
  0 <= m -> Zdigits2 m + e <= B ->
  0 <= shr_m (shr_fexp prec emax m e l).1 /\
  Zdigits2 (shr_m (shr_fexp prec emax m e l).1) + (shr_fexp prec emax m e l).2
    <= Z.max B (-1074) /\
  (shr_fexp prec emax m e l).2 <= Z.max e (Z.max (B - 53) (-1074)).
Proof.
  intros Hm HB. unfold shr_fexp, shr.
  pose proof (Zdigits2_nonneg m) as Hd.
  assert (Hf : fexp prec emax (Zdigits2 m + e) = Z.max (Zdigits2 m + e - 53) (-1074))
    by reflexivity.
  destruct (fexp prec emax (Zdigits2 m + e) - e) as [|p|p] eqn:En; simpl;
    rewrite ?shr_record_of_loc_m; try (repeat split; lia).
  rewrite iter_pos_nat.
  destruct (shr_iter_digits (Pos.to_nat p) (shr_record_of_loc m l)) as [H0 H1];
    [now rewrite shr_record_of_loc_m|].
  rewrite shr_record_of_loc_m, positive_nat_Z in H1. rewrite H1.
  repeat split; lia.
Qed.

Lemma round_nearest_even_bound m l :
  m <= round_nearest_even m l <= m + 1.
Proof. destruct l as [|[]]; simpl; try destruct (Z.even m); lia. Qed.

Lemma Zdigits2_succ_le m m' :
  0 <= m -> m <= m' <= m + 1 -> Zdigits2 m' <= Zdigits2 m + 1.
Proof.
  intros Hm Hm'. pose proof (Zdigits2_value m Hm) as Hv.
  pose proof (Zdigits2_nonneg m) as Hd.
  apply Zdigits2_le; [|lia]. rewrite Z.pow_add_r by lia. lia.
Qed.

(** Rounding a non-negative mantissa whose magnitude is below 2^B, for [B]
    well inside the range of binary64, gives a zero or a finite value below
    2^(B+1). *)
Lemma binary_round_aux_finite s m e l B :
  0 <= m -> Zdigits2 m + e <= B -> e <= 971 -> -1074 <= B <= 972 ->
  finite_below (B + 1) (binary_round_aux prec emax s m e l).
Proof.
  intros Hm HB He HBr. unfold binary_round_aux.
  destruct (shr_fexp_bound m e l B Hm HB) as (H0 & H1 & H2).
  destruct (shr_fexp prec emax m e l) as [mrs' e']. simpl in H0, H1, H2.
  pose proof (round_nearest_even_bound (shr_m mrs') (loc_of_shr_record mrs')) as Hr.
  pose proof (Zdigits2_succ_le _ _ H0 Hr) as Hd.
  set (m1 := round_nearest_even (shr_m mrs') (loc_of_shr_record mrs')) in *.
  destruct (shr_fexp_bound m1 e' loc_Exact (B + 1) ltac:(lia) ltac:(lia))
    as (H0' & H1' & H2').
  destruct (shr_fexp prec emax m1 e' loc_Exact) as [mrs'' e'']. simpl in H0', H1', H2'.
  destruct (shr_m mrs'') as [|mm|mm]; [exact I| |lia].
  destruct (Z.leb_spec e'' (emax - prec)) as [_|Hbad].
  - simpl. simpl in H1'. lia.
  - unfold emax, prec in Hbad. lia.
Qed.

Lemma binary_round_finite s p e B :
  Zpos (digits2_pos p) + e <= B -> e <= 971 -> -1074 <= B <= 972 ->
  finite_below (B + 1) (binary_round prec emax s p e).
Proof.
  intros HB He HBr. unfold binary_round, shl_align.
  destruct (fexp prec emax (Zpos (digits2_pos p) + e) - e) as [|k|k] eqn:Ek;
    try (apply binary_round_aux_finite; simpl; lia).
  destruct (iter_xO_spec p k) as [_ Hd].
  apply binary_round_aux_finite; simpl; lia.
Qed.

Lemma binary_normalize_finite m e B :
  Zdigits2 m + e <= B -> e <= 971 -> -1074 <= B <= 972 ->
  finite_below (B + 1) (binary_normalize prec emax m e false).
Proof.
  intros HB He HBr. destruct m as [|p|p]; simpl; [exact I| |];
    now apply binary_round_finite.
Qed.

Lemma finite_below_mono B B' f : B <= B' -> finite_below B f -> finite_below B' f.
Proof. destruct f; simpl; auto. lia. Qed.

Lemma finite_below_int B f : finite_below B f -> exists z, int_of_float f = Done z.
Proof. destruct f; simpl; intros H; try contradiction; eauto. Qed.

Lemma fmul_finite x y Bx By :
  finite_below Bx x -> finite_below By y -> -1074 <= Bx + By <= 972 ->
  finite_below (Bx + By + 1) (fmul x y).
Proof.
  destruct x as [sx|sx| |sx mx ex], y as [sy|sy| |sy my ey]; simpl;
    intros Hx Hy HB; try contradiction; try exact I.
  apply binary_round_aux_finite; try lia.
  apply Z.le_trans with (Zpos (digits2_pos mx) + Zpos (digits2_pos my) + (ex + ey)); [|lia].
  apply Z.add_le_mono_r. apply (digits2_le (mx * my)).
  rewrite Pos2Z.inj_mul, Z.pow_add_r by lia.
  pose proof (digits2_value mx). pose proof (digits2_value my). nia.
Qed.

Lemma shl_align_value mx ex ez :
  ez <= ex -> Zpos (shl_align mx ex ez).1 = Zpos mx * 2 ^ (ex - ez).
Proof.
  intros H. unfold shl_align. destruct (ez - ex) as [|d|d] eqn:Ed; simpl; try lia.
  - replace (ex - ez) with 0 by lia. lia.
  - destruct (iter_xO_spec mx d) as [-> _]. f_equal. f_equal. lia.
Qed.

Lemma aligned_bound mx ex ez B :
  ez <= ex -> Zpos (digits2_pos mx) + ex <= B ->
  Zpos (shl_align mx ex ez).1 < 2 ^ (B - ez).
Proof.
  intros Hez HB. rewrite shl_align_value by exact Hez.
  pose proof (digits2_value mx) as Hv.
  apply Z.lt_le_trans with (2 ^ Zpos (digits2_pos mx) * 2 ^ (ex - ez)).
  - apply Z.mul_lt_mono_pos_r; [apply Z.pow_pos_nonneg; lia|exact Hv].
  - rewrite <- Z.pow_add_r by lia. apply Z.pow_le_mono_r; lia.
Qed.

Lemma Zdigits2_abs_le m k : Z.abs m < 2 ^ k -> 0 <= k -> Zdigits2 m <= k.
Proof.
  intros Hm Hk. destruct m as [|p|p]; simpl in *; [lia| |]; now apply digits2_le.
Qed.

(** The sum or difference of two aligned mantissas, normalised. *)
Lemma aligned_sum_finite u a b ez Bx By :
  Z.abs u <= a + b -> 0 < a < 2 ^ (Bx - ez) -> 0 < b < 2 ^ (By - ez) ->
  -1075 <= Z.max Bx By <= 971 ->
  finite_below (Z.max Bx By + 2) (binary_normalize prec emax u ez false).
Proof.
  intros Hu Ha Hb HB.
  assert (Hx : 0 <= Bx - ez).
  { destruct (Z.le_gt_cases 0 (Bx - ez)); [assumption|].
    rewrite Z.pow_neg_r in Ha by lia. lia. }
  assert (Hy : 0 <= By - ez).
  { destruct (Z.le_gt_cases 0 (By - ez)); [assumption|].
    rewrite Z.pow_neg_r in Hb by lia. lia. }
  replace (Z.max Bx By + 2) with (Z.max Bx By + 1 + 1) by lia.
  apply binary_normalize_finite; try lia.
  assert (Zdigits2 u <= Z.max Bx By - ez + 1); [|lia].
  apply Zdigits2_abs_le; [|lia].
  rewrite Z.pow_add_r by lia.
  assert (2 ^ (Bx - ez) <= 2 ^ (Z.max Bx By - ez)) by (apply Z.pow_le_mono_r; lia).
  assert (2 ^ (By - ez) <= 2 ^ (Z.max Bx By - ez)) by (apply Z.pow_le_mono_r; lia).
  lia.
Qed.

Lemma fadd_finite x y Bx By :
  finite_below Bx x -> finite_below By y -> -1075 <= Z.max Bx By <= 971 ->
  finite_below (Z.max Bx By + 2) (fadd x y).
Proof.
  destruct x as [sx|sx| |sx mx ex], y as [sy|sy| |sy my ey]; simpl;
    intros Hx Hy HB; try contradiction.
  - destruct sx, sy; exact I.
  - lia.
  - lia.
  - apply (aligned_sum_finite _ (Zpos (shl_align mx ex (Z.min ex ey)).1)
             (Zpos (shl_align my ey (Z.min ex ey)).1)).
    + generalize (shl_align mx ex (Z.min ex ey)).1 (shl_align my ey (Z.min ex ey)).1.
      intros p q. destruct sx, sy; simpl; lia.
    + split; [lia|]. apply aligned_bound; lia.
    + split; [lia|]. apply aligned_bound; lia.
    + exact HB.
Qed.

Lemma fsub_finite x y Bx By :
  finite_below Bx x -> finite_below By y -> -1075 <= Z.max Bx By <= 971 ->
  finite_below (Z.max Bx By + 2) (fsub x y).
Proof.
  destruct x as [sx|sx| |sx mx ex], y as [sy|sy| |sy my ey]; simpl;
    intros Hx Hy HB; try contradiction.
  - destruct sx, sy; exact I.
  - lia.
  - lia.
  - apply (aligned_sum_finite _ (Zpos (shl_align mx ex (Z.min ex ey)).1)
             (Zpos (shl_align my ey (Z.min ex ey)).1)).
    + generalize (shl_align mx ex (Z.min ex ey)).1 (shl_align my ey (Z.min ex ey)).1.
      intros p q. destruct sx, sy; simpl; lia.
    + split; [lia|]. apply aligned_bound; lia.
    + split; [lia|]. apply aligned_bound; lia.
    + exact HB.
Qed.

Lemma float_of_int_finite z : exact_int z -> finite_below 53 (float_of_int z).
Proof.
  intros Hz. destruct (Z.eq_dec z 0) as [->|Hne]; [exact I|].
  destruct (float_of_int_exact z Hz Hne) as (m & e & -> & Hd & He & _).
  simpl. rewrite Hd. lia.
Qed.

Lemma unit_interval_finite t : in_unit_interval t -> finite_below 1 t.
Proof.
  intros (Hnan & H0 & H1). destruct t as [s|s| |s m e]; simpl in *;
    [exact I| |congruence|].
  - subst s. discriminate H1.
  - destruct (Z.leb_spec 0 e) as [He|He].
    + apply Z.ltb_ge in H0, H1.
      assert (0 < 2 ^ e) by (apply Z.pow_pos_nonneg; lia).
      destruct s; simpl in *; [nia|].
      assert (e = 0).
      { destruct (Z.eq_dec e 0); [assumption|].
        assert (2 ^ 1 <= 2 ^ e) by (apply Z.pow_le_mono_r; lia). nia. }
      subst e. assert (m = 1%positive) by lia. subst m. simpl. lia.
    + apply Z.ltb_ge in H0, H1. destruct s; simpl in *; [lia|].
      assert (Zpos (digits2_pos m) <= - e + 1); [|lia].
      assert (0 < 2 ^ (- e)) by (apply Z.pow_pos_nonneg; lia).
      apply digits2_le. rewrite Z.pow_add_r by lia. lia.
Qed.

(** For integers that binary64 holds exactly and [t] in [0, 1] the
    interpolated value is a number. *)
Lemma lerp_finite a b t :
  exact_int a -> exact_int b -> in_unit_interval t ->
  exists z, int_of_float (lerp (float_of_int a) (float_of_int b) t) = Done z.
Proof.
  intros Ha Hb Ht. apply (finite_below_int 59). unfold lerp.
  pose proof (float_of_int_finite a Ha) as HA.
  pose proof (float_of_int_finite b Hb) as HB.
  pose proof (unit_interval_finite t Ht) as HT.
  assert (H1 : finite_below 1 f1) by (vm_compute; discriminate).
  pose proof (fsub_finite f1 t 1 1 H1 HT ltac:(lia)) as Hs.
  pose proof (fmul_finite _ _ _ _ Hs HA ltac:(lia)) as Hx.
  pose proof (fmul_finite _ _ _ _ HT HB ltac:(lia)) as Hy.
  pose proof (fadd_finite _ _ _ _ Hx Hy ltac:(lia)) as Hsum.
  eapply finite_below_mono; [|exact Hsum]. lia.
Qed.

Lemma interpolate_returns : forall original final : list point,
  forall t, in_unit_interval t ->
  Forall exact_point original -> Forall exact_point final ->
  exists pts, for_each (interpolate_point t) (zip original final) = Done pts.
Proof.
  induction original as [|[i0 j0] original IH]; intros [|[i1 j1] final] t Ht Ho Hf;
    try (exists []; reflexivity).
  apply Forall_cons in Ho as [[Hi0 Hj0] Ho]. apply Forall_cons in Hf as [[Hi1 Hj1] Hf].
  destruct (IH final t Ht Ho Hf) as [pts Hpts].
  destruct (lerp_finite j0 j1 t Hj0 Hj1 Ht) as [x Hx].
  destruct (lerp_finite i0 i1 t Hi0 Hi1 Ht) as [y Hy].
  exists ((x, y) :: pts). simpl in *. fold (zip original final).
  now rewrite Hx, Hy, Hpts.
Qed.

Lemma interpolate_color_returns c0 c1 t :
  in_unit_interval t -> exact_color c0 -> exact_color c1 ->
  exists color, interpolate_color c0 c1 t = Done color.
Proof.
  intros Ht (Hr0 & Hg0 & Hb0) (Hr1 & Hg1 & Hb1). unfold interpolate_color.
  destruct (lerp_finite _ _ t Hr0 Hr1 Ht) as [r ->].
  destruct (lerp_finite _ _ t Hg0 Hg1 Ht) as [g ->].
  destruct (lerp_finite _ _ t Hb0 Hb1 Ht) as [b ->].
  eexists. reflexivity.
Qed.

(** What the interpolator returns, when it returns. *)
Lemma interpolate_values (s : lines) (c0 c1 : rgba) (t : float)
    (pts : list point) (color : rgba) :
  interpolate s t = Done pts ->
  interpolate_color c0 c1 t = Done color ->
  length pts = Nat.min (length (original_line s)) (length (final_line s)) /\
  (forall k i0 j0 i1 j1,
     original_line s !! k = Some (i0, j0) ->
     final_line s !! k = Some (i1, j1) ->
     exists x y,
       pts !! k = Some (x, y) /\
       int_of_float (lerp (float_of_int j0) (float_of_int j1) t) = Done x /\
       int_of_float (lerp (float_of_int i0) (float_of_int i1) t) = Done y /\
       truncation_of (lerp (float_of_int j0) (float_of_int j1) t) x /\
       truncation_of (lerp (float_of_int i0) (float_of_int i1) t) y) /\
  alpha color = 255 /\
  truncation_of (lerp (float_of_int (red c0)) (float_of_int (red c1)) t) (red color) /\
  truncation_of (lerp (float_of_int (green c0)) (float_of_int (green c1)) t) (green color) /\
  truncation_of (lerp (float_of_int (blue c0)) (float_of_int (blue c1)) t) (blue color).
Proof.
  intros Hpts Hcolor. unfold interpolate in Hpts.
  apply for_each_Forall2 in Hpts. split; [|split].
  - rewrite <- (Forall2_length _ _ _ Hpts). apply length_zip_with.
  - intros k i0 j0 i1 j1 Ho Hf.
    assert (Hz : zip (original_line s) (final_line s) !! k = Some ((i0, j0), (i1, j1))).
    { apply lookup_zip_with_Some. eauto. }
    destruct (Forall2_lookup_l _ _ _ _ _ Hpts Hz) as ([x y] & Hk & Hxy).
    simpl in Hxy. inv_bind Hxy. inv_bind Hxy. injection Hxy as <- <-.
    exists a, a0. split; [exact Hk|]. split; [exact Ha|]. split; [exact Ha0|].
    split; now apply int_of_float_truncates.
  - unfold interpolate_color in Hcolor. inv_bind Hcolor. inv_bind Hcolor.
    inv_bind Hcolor. injection Hcolor as <-. simpl.
    split; [reflexivity|]. split; [|split]; now apply int_of_float_truncates.
Qed.

(** C2 (as amended).  For two lines and two colours, all of whose
    coordinates and channels are integers that binary64 holds exactly, and
    every [t] in [0, 1], the interpolator returns one point for each index
    of the shorter line; the point at index [k] is, in (x, y) = (column,
    row) order, the pair of the interpolated column and the interpolated
    row, each truncated toward zero by [int]; and the colour has the three
    interpolated channels, each truncated toward zero, and alpha 255. *)
Theorem interpolate_truncates (s : lines) (c0 c1 : rgba) (t : float) :
  in_unit_interval t ->
  Forall exact_point (original_line s) ->
  Forall exact_point (final_line s) ->
  exact_color c0 -> exact_color c1 ->
  exists pts color,
    interpolate s t = Done pts /\
    interpolate_color c0 c1 t = Done color /\
    length pts = Nat.min (length (original_line s)) (length (final_line s)) /\
    (forall k i0 j0 i1 j1,
       original_line s !! k = Some (i0, j0) ->
       final_line s !! k = Some (i1, j1) ->
       exists x y,
         pts !! k = Some (x, y) /\
         int_of_float (lerp (float_of_int j0) (float_of_int j1) t) = Done x /\
         int_of_float (lerp (float_of_int i0) (float_of_int i1) t) = Done y /\
         truncation_of (lerp (float_of_int j0) (float_of_int j1) t) x /\
         truncation_of (lerp (float_of_int i0) (float_of_int i1) t) y) /\
    alpha color = 255 /\
    truncation_of (lerp (float_of_int (red c0)) (float_of_int (red c1)) t) (red color) /\
    truncation_of (lerp (float_of_int (green c0)) (float_of_int (green c1)) t) (green color) /\
    truncation_of (lerp (float_of_int (blue c0)) (float_of_int (blue c1)) t) (blue color).
Proof.
  intros Ht Ho Hf Hc0 Hc1.
  destruct (interpolate_returns _ _ t Ht Ho Hf) as [pts Hpts].
  destruct (interpolate_color_returns c0 c1 t Ht Hc0 Hc1) as [color Hcolor].
  exists pts, color. split; [exact Hpts|]. split; [exact Hcolor|].
  now apply interpolate_values.
Qed.

Lemma interpolate_truncates_witness :
  let s := Lines [(0, 0)] [(1, 1)] in
  let c0 := RGBA 0 0 0 255 in
  let c1 := RGBA 1 1 1 255 in
  let t := three_quarters in
  exists pts color,
    interpolate s t = Done pts /\
    interpolate_color c0 c1 t = Done color /\
    length pts = Nat.min (length (original_line s)) (length (final_line s)) /\
    (forall k i0 j0 i1 j1,
       original_line s !! k = Some (i0, j0) ->
       final_line s !! k = Some (i1, j1) ->
       exists x y,
         pts !! k = Some (x, y) /\
         int_of_float (lerp (float_of_int j0) (float_of_int j1) t) = Done x /\
         int_of_float (lerp (float_of_int i0) (float_of_int i1) t) = Done y /\
         truncation_of (lerp (float_of_int j0) (float_of_int j1) t) x /\
         truncation_of (lerp (float_of_int i0) (float_of_int i1) t) y) /\
    alpha color = 255 /\
    truncation_of (lerp (float_of_int (red c0)) (float_of_int (red c1)) t) (red color) /\
    truncation_of (lerp (float_of_int (green c0)) (float_of_int (green c1)) t) (green color) /\
    truncation_of (lerp (float_of_int (blue c0)) (float_of_int (blue c1)) t) (blue color).
Proof.
  apply (interpolate_truncates (Lines [(0, 0)] [(1, 1)]) (RGBA 0 0 0 255)
           (RGBA 1 1 1 255) three_quarters).
  - repeat split. discriminate.
  - repeat constructor.
  - repeat constructor.
  - repeat constructor.
  - repeat constructor.
Defined.

(** C2 as the specification states it fails: at t = 0.75, between the points (0, 0)
    and (1, 1) and between the colours (0, 0, 0) and (1, 1, 1), every
    interpolated value is 0.75; the program returns 0 for each, where
    rounding to the nearest integer gives 1. *)
Lemma interpolate_rounds_counterexample :
  ~ (forall (s : lines) (c0 c1 : rgba) (t : float),
       in_unit_interval t ->
       interpolate s t
       = for_each (interpolate_point_rounded t) (zip (original_line s) (final_line s)) /\
       interpolate_color c0 c1 t = interpolate_color_rounded c0 c1 t).
Proof.
  intros H.
  destruct (H (Lines [(0, 0)] [(1, 1)]) (RGBA 0 0 0 255) (RGBA 1 1 1 255)
              three_quarters) as [Hpts _].
  - repeat split. discriminate.
  - vm_compute in Hpts. discriminate Hpts.
Qed.

(** ** C7: the frames of a run *)

Lemma lookup_map {A B} (g : A -> B) (l : list A) (k : nat) (x : A) :
  l !! k = Some x -> map g l !! k = Some (g x).
Proof.
  revert k. induction l as [|a l IH]; intros [|k] H; try discriminate; simpl in *.
  - now injection H as ->.
  - auto.
Qed.

Lemma lookup_range (n : Z) (k : nat) :
  (k < Z.to_nat n)%nat -> range n !! k = Some (Z.of_nat k).
Proof.
  intros Hk. unfold range. apply lookup_map.
  now rewrite lookup_seq_lt.
Qed.

Lemma length_range (n : Z) : length (range n) = Z.to_nat n.
Proof. unfold range. now rewrite length_map, length_seq. Qed.

(** The samples of [np.linspace(0.0, 1.0, num)]. *)
Lemma linspace_unit_spec (num : Z) (ts : list float) :
  linspace f0 f1 num = Done ts ->
  0 <= num /\ length ts = Z.to_nat num /\
  (num = 1 -> ts = [f0]) /\
  (2 <= num ->
     last ts = Some f1 /\
     forall k, 0 <= k < num - 1 ->
       ts !! Z.to_nat k
       = Some (fadd (fmul (float_of_int k) (fdiv f1 (float_of_int (num - 1)))) f0)).
Proof.
  unfold linspace. destruct (Z.ltb_spec num 0) as [|Hnum]; [discriminate|].
  change (fsub f1 f0) with f1. intros H. injection H as <-.
  split; [exact Hnum|]. destruct (Z.ltb_spec 1 num) as [H1|H1].
  - split; [now rewrite length_insert, length_map, length_range|].
    split; [lia|]. intros _. split.
    + rewrite last_lookup, length_insert, length_map, length_range.
      replace (Nat.pred (Z.to_nat num)) with (Z.to_nat (num - 1)) by lia.
      apply list_lookup_insert_eq. rewrite length_map, length_range. lia.
    + intros k Hk. rewrite list_lookup_insert_ne by lia.
      rewrite (lookup_map _ _ _ (Z.of_nat (Z.to_nat k))) by (apply lookup_range; lia).
      now rewrite Z2Nat.id by lia.
  - split; [now rewrite !length_map, length_range|].
    split; [intros ->; reflexivity|lia].
Qed.





Section RasteriserFacts.

Variable draw_line : image -> point -> point -> rgba -> image.

(** What is assumed of Pillow's line drawing: it keeps the size of the
    image, and every pixel either keeps its colour or takes the colour of
    the line, clamped as ink is. *)
Hypothesis draw_line_size : forall img p q color,
  width (draw_line img p q color) = width img /\
  height (draw_line img p q color) = height img.
Hypothesis draw_line_pixels : forall img p q color x y,
  pixels (draw_line img p q color) x y = pixels img x y \/
  pixels (draw_line img p q color) x y = clip color.




End RasteriserFacts.







(** * Further properties of the code *)

(** ** [find_first] *)

Lemma find_in_row_spec pic i row :
  py_index pic i = Done row ->
  forall n a, (a + n <= length row)%nat ->
    (exists j px,
        find_in_row pic i (map Z.of_nat (seq a n)) = Done (Some (i, Z.of_nat j)) /\
        (a <= j < a + n)%nat /\ row !! j = Some px /\ alpha px <> 0 /\
        forall k px', (a <= k < j)%nat -> row !! k = Some px' -> alpha px' = 0) \/
    (find_in_row pic i (map Z.of_nat (seq a n)) = Done None /\
     forall k px', (a <= k < a + n)%nat -> row !! k = Some px' -> alpha px' = 0).
Proof.
  intros Hrow. induction n as [|n IH]; intros a Hlen.
  - right. split; [reflexivity|]. intros k px' Hk. lia.
  - cbn [seq map find_in_row]. unfold getitem2.
    rewrite (bind_Done_eq _ _ _ Hrow).
    destruct (lookup_lt_is_Some_2 row a ltac:(lia)) as [px Hpx].
    rewrite (bind_Done_eq _ _ _ (py_index_nat row a px Hpx)).
    destruct (Z.eqb_spec (alpha px) 0) as [Hz|Hnz]; simpl.
    + destruct (IH (S a) ltac:(lia)) as [(j & px1 & -> & Hj & Hl & Ha & Hbefore)|[-> Hall]].
      * left. exists j, px1. repeat split; auto; try lia.
        intros k px' Hk Hk'. destruct (Nat.eq_dec k a) as [->|Hne].
        -- congruence.
        -- apply (Hbefore k); [lia|assumption].
      * right. split; [reflexivity|]. intros k px' Hk Hk'.
        destruct (Nat.eq_dec k a) as [->|Hne]; [congruence|].
        apply (Hall k); [lia|assumption].
    + left. exists a, px. repeat split; auto; lia.
Qed.

Lemma pixel_at_row pic i j row : pic !! i = Some row -> pixel_at pic i j = row !! j.
Proof. unfold pixel_at. intros ->. reflexivity. Qed.

Lemma find_in_rows_spec pic row0 :
  pic !! 0%nat = Some row0 -> rectangular (length row0) pic ->
  forall n a, (a + n <= length pic)%nat ->
    (exists i j px,
        find_in_rows pic (map Z.of_nat (seq a n))
        = Done (Some (Z.of_nat i, Z.of_nat j)) /\
        (a <= i < a + n)%nat /\ pixel_at pic i j = Some px /\ alpha px <> 0 /\
        forall i' j' px', (a <= i')%nat -> row_major_before i' j' i j ->
          pixel_at pic i' j' = Some px' -> alpha px' = 0) \/
    (find_in_rows pic (map Z.of_nat (seq a n)) = Done None /\
     forall i' j' px', (a <= i' < a + n)%nat ->
       pixel_at pic i' j' = Some px' -> alpha px' = 0).
Proof.
  intros H0 Hrect. unfold rectangular in Hrect. rewrite Forall_lookup in Hrect.
  induction n as [|n IH]; intros a Hlen.
  - right. split; [reflexivity|]. intros i' j' px' Hi. lia.
  - cbn [seq map find_in_rows].
    rewrite (bind_Done_eq _ _ _ (py_index_nat pic 0 row0 H0)).
    destruct (lookup_lt_is_Some_2 pic a ltac:(lia)) as [row Hrow].
    pose proof (Hrect _ _ Hrow) as Hw.
    unfold range, len. rewrite Nat2Z.id.
    destruct (find_in_row_spec pic (Z.of_nat a) row (py_index_nat pic a row Hrow)
                (length row0) 0%nat ltac:(lia))
      as [(j & px & -> & Hj & Hl & Ha & Hbefore)|[-> Hall]]; simpl.
    + left. exists a, j, px. rewrite (pixel_at_row _ _ _ _ Hrow).
      repeat split; auto; try lia.
      intros i' j' px' Hi [Hlt|[-> Hlt]]; [lia|].
      rewrite (pixel_at_row _ _ _ _ Hrow). apply Hbefore. lia.
    + destruct (IH (S a) ltac:(lia)) as [(i & j & px & -> & Hi & Hp & Ha & Hbefore)|[-> Hnone]].
      * left. exists i, j, px. repeat split; auto; try lia.
        intros i' j' px' Hi' Hb Hp'. destruct (Nat.eq_dec i' a) as [->|Hne].
        -- rewrite (pixel_at_row _ _ _ _ Hrow) in Hp'.
           apply (Hall j'); [|assumption]. apply lookup_lt_Some in Hp'. lia.
        -- apply (Hbefore i' j'); auto. lia.
      * right. split; [reflexivity|]. intros i' j' px' Hi' Hp'.
        destruct (Nat.eq_dec i' a) as [->|Hne].
        -- rewrite (pixel_at_row _ _ _ _ Hrow) in Hp'.
           apply (Hall j'); [|assumption]. apply lookup_lt_Some in Hp'. lia.
        -- apply (Hnone i' j'); auto. lia.
Qed.

(** The scan of [find_first] on an array with rows of one length. *)
Lemma find_first_scan pic w :
  pic <> [] -> rectangular w pic ->
  (exists i j px,
      find_first pic = Done (Z.of_nat i, Z.of_nat j) /\
      pixel_at pic i j = Some px /\ alpha px <> 0 /\
      forall i' j' px', row_major_before i' j' i j ->
        pixel_at pic i' j' = Some px' -> alpha px' = 0) \/
  (find_first pic = Done (len pic, Z.of_nat w) /\
   transparent pic /\ pixel_at pic (length pic) w = None).
Proof.
  intros Hne Hrect. destruct pic as [|row0 rest] eqn:E; [congruence|].
  rewrite <- E in *. assert (H0 : pic !! 0%nat = Some row0) by now rewrite E.
  assert (Hw : length row0 = w).
  { unfold rectangular in Hrect. rewrite Forall_lookup in Hrect. eauto. }
  subst w. unfold find_first, range, len. rewrite Nat2Z.id.
  destruct (find_in_rows_spec pic row0 H0 Hrect (length pic) 0%nat ltac:(lia))
    as [(i & j & px & -> & Hi & Hp & Ha & Hbefore)|[-> Hnone]]; simpl.
  - left. exists i, j, px. repeat split; auto. intros i' j' px' Hb Hp'.
    apply (Hbefore i' j'); [lia|assumption|assumption].
  - right. rewrite (bind_Done_eq _ _ _ (py_index_nat pic 0 row0 H0)).
    split; [reflexivity|]. split.
    + unfold transparent. apply Forall_lookup. intros i row Hrow.
      apply Forall_lookup. intros j px Hpx. apply (Hnone i j).
      * apply lookup_lt_Some in Hrow. lia.
      * now rewrite (pixel_at_row _ _ _ _ Hrow).
    + unfold pixel_at. rewrite (lookup_ge_None_2 pic (length pic)) by lia.
      reflexivity.
Qed.

(** X1.  On an array with rows of one length, [find_first] returns the
    first position of the row-major scan whose pixel has a non-zero alpha;
    when there is none it returns (number of rows, length of a row), which
    is no position of the array, and on an array with no rows it raises
    [IndexError]. *)
Theorem find_first_row_major pic w :
  rectangular w pic ->
  (exists i j px,
      find_first pic = Done (Z.of_nat i, Z.of_nat j) /\
      pixel_at pic i j = Some px /\ alpha px <> 0 /\
      forall i' j' px', row_major_before i' j' i j ->
        pixel_at pic i' j' = Some px' -> alpha px' = 0) \/
  (pic <> [] /\ find_first pic = Done (len pic, Z.of_nat w) /\
   transparent pic /\ pixel_at pic (length pic) w = None) \/
  (pic = [] /\ find_first pic = Raised IndexError).
Proof.
  intros Hrect. destruct pic as [|row0 rest] eqn:E.
  - right. right. split; reflexivity.
  - rewrite <- E in *. assert (Hne : pic <> []) by (rewrite E; discriminate).
    destruct (find_first_scan pic w Hne Hrect) as [Hfound|Hnone].
    + left. exact Hfound.
    + right. left. split; [exact Hne|exact Hnone].
Qed.

Lemma find_first_row_major_witness :
  let pic : ndarray := [[BLANK; BLANK]; [BLANK; red_px]] in
  (exists i j px,
      find_first pic = Done (Z.of_nat i, Z.of_nat j) /\
      pixel_at pic i j = Some px /\ alpha px <> 0 /\
      forall i' j' px', row_major_before i' j' i j ->
        pixel_at pic i' j' = Some px' -> alpha px' = 0) \/
  (pic <> [] /\ find_first pic = Done (len pic, Z.of_nat 2) /\
   transparent pic /\ pixel_at pic (length pic) 2 = None) \/
  (pic = [] /\ find_first pic = Raised IndexError).
Proof.
  apply (find_first_row_major [[BLANK; BLANK]; [BLANK; red_px]] 2).
  repeat constructor.
Defined.

(** ** [get_line]: the padded array *)

Lemma pixel_at_Some (pic : list (list rgba)) i j px :
  pixel_at pic i j = Some px <->
  exists row, pic !! i = Some row /\ row !! j = Some px.
Proof.
  unfold pixel_at. destruct (pic !! i) as [row|]; simpl.
  - split; [intros H; now exists row | now intros (? & [= <-] & H)].
  - split; [discriminate | now intros (? & [=] & _)].
Qed.

Lemma extended_inside (original : ndarray) w i j :
  rectangular w original ->
  alpha (extended original i j) <> 0 ->
  1 <= i <= len original /\ 1 <= j <= Z.of_nat w.
Proof.
  intros Hrect. unfold extended, len.
  destruct (Z.leb_spec 1 i) as [Hi|Hi], (Z.leb_spec 1 j) as [Hj|Hj]; simpl;
    try (intros H; exfalso; now apply H).
  destruct (pixel_at original _ _) as [px|] eqn:Hpx; simpl;
    [|intros H; exfalso; now apply H].
  intros _. apply pixel_at_Some in Hpx as (row & Hrow & Hpx).
  unfold rectangular in Hrect. rewrite Forall_lookup in Hrect.
  pose proof (Hrect _ _ Hrow). apply lookup_lt_Some in Hrow, Hpx. lia.
Qed.

Lemma getitem2_nat (pic : ndarray) (a b : nat) row px :
  pic !! a = Some row -> row !! b = Some px ->
  getitem2 pic (Z.of_nat a) (Z.of_nat b) = Done px.
Proof.
  intros Ha Hb. unfold getitem2.
  rewrite (bind_Done_eq _ _ _ (py_index_nat pic a row Ha)).
  now apply py_index_nat.
Qed.

(** Reading the padded array inside its bounds gives the pixel of the
    image, or a blank one on the border. *)
Lemma getitem2_padded (original : list (list rgba)) row0 padded W H i j :
  original !! 0%nat = Some row0 -> rectangular (length row0) original ->
  pad original = Done (padded, W, H) ->
  0 <= i < H -> 0 <= j < W ->
  getitem2 padded i j = Done (extended original i j).
Proof.
  intros H0 Hrect Hpad Hi Hj. rewrite (pad_spec original row0 H0) in Hpad.
  injection Hpad as <- <- <-. unfold len in *.
  unfold rectangular in Hrect. rewrite Forall_lookup in Hrect.
  set (blank := replicate (length row0 + 2) BLANK).
  assert (Hblank : forall k : nat, (k < length row0 + 2)%nat -> blank !! k = Some BLANK).
  { intros k Hk. now apply lookup_replicate_2. }
  rewrite <- (Z2Nat.id i), <- (Z2Nat.id j) by lia.
  set (a := Z.to_nat i) in *. set (b := Z.to_nat j) in *.
  assert (Ha : (a < length original + 2)%nat) by lia.
  assert (Hb : (b < length row0 + 2)%nat) by lia.
  clearbody a b. clear Hi Hj i j.
  unfold extended.
  destruct a as [|a].
  - apply (getitem2_nat _ 0 b blank); [reflexivity|]. now apply Hblank.
  - destruct (Z.leb_spec 1 (Z.of_nat (S a))) as [_|?]; [|lia].
    replace (Z.to_nat (Z.of_nat (S a) - 1)) with a by lia.
    destruct (original !! a) as [row|] eqn:Hrow.
    + pose proof (Hrect _ _ Hrow) as Hw.
      apply (getitem2_nat _ (S a) b (BLANK :: row ++ [BLANK])).
      { simpl. rewrite lookup_app_l
          by (rewrite length_map; now apply lookup_lt_Some in Hrow).
        exact (lookup_map (fun r => BLANK :: r ++ [BLANK]) original a row Hrow). }
      destruct b as [|b]; [reflexivity|].
      destruct (Z.leb_spec 1 (Z.of_nat (S b))) as [_|?]; [|lia].
      replace (Z.to_nat (Z.of_nat (S b) - 1)) with b by lia. simpl.
      destruct (row !! b) as [px|] eqn:Hpx.
      * rewrite (proj2 (pixel_at_Some original a b px)) by eauto. simpl.
        rewrite lookup_app_l by now apply lookup_lt_Some in Hpx. exact Hpx.
      * assert (Hnone : pixel_at original a b = None).
        { destruct (pixel_at original a b) eqn:E; [|reflexivity].
          apply pixel_at_Some in E as (row' & Hrow' & Hpx'). congruence. }
        rewrite Hnone. simpl. apply lookup_ge_None in Hpx.
        rewrite lookup_app_r by lia. replace (b - length row)%nat with 0%nat by lia.
        reflexivity.
    + assert (Hnone : forall b', pixel_at original a b' = None).
      { intros b'. destruct (pixel_at original a b') eqn:E; [|reflexivity].
        apply pixel_at_Some in E as (row' & Hrow' & Hpx'). congruence. }
      apply lookup_ge_None in Hrow.
      apply (getitem2_nat _ (S a) b blank).
      { simpl. rewrite lookup_app_r by (rewrite length_map; lia).
        rewrite length_map. replace (a - length original)%nat with 0%nat by lia.
        reflexivity. }
      rewrite Hnone. simpl. rewrite Hblank by lia. now destruct (1 <=? Z.of_nat b).
Qed.

Lemma getitem2_pixel_at (pic : list (list rgba)) (a b : nat) px :
  getitem2 pic (Z.of_nat a) (Z.of_nat b) = Done px -> pixel_at pic a b = Some px.
Proof.
  unfold getitem2, py_index. intros H. inv_bind H.
  destruct (Z.leb_spec 0 (Z.of_nat a)); [|lia].
  destruct (Z.leb_spec 0 (Z.of_nat b)); [|lia].
  rewrite Nat2Z.id in *. apply pixel_at_Some.
  destruct (pic !! a) as [row|]; [|discriminate]. injection Ha as <-.
  exists row. split; [reflexivity|].
  destruct (row !! b); [|discriminate]. now injection H as ->.
Qed.

Lemma point_in_true (p : point) l : point_in p l = true <-> In p l.
Proof.
  unfold point_in. rewrite existsb_exists. split.
  - intros (q & Hq & E). apply point_eqb_eq in E. now subst q.
  - intros H. exists p. split; [exact H|]. now apply point_eqb_eq.
Qed.

Lemma extended_succ (original : list (list rgba)) (a b : nat) :
  extended original (Z.of_nat (S a)) (Z.of_nat (S b))
  = default BLANK (pixel_at original a b).
Proof.
  unfold extended.
  destruct (Z.leb_spec 1 (Z.of_nat (S a))); [|lia].
  destruct (Z.leb_spec 1 (Z.of_nat (S b))); [|lia].
  simpl. do 3 f_equal; lia.
Qed.

(** ** [get_line]: the loop, on a rectangular image *)

Section Tracing.

Variable original : list (list rgba).
Variable row0 : list rgba.
Variable padded : ndarray.
Variables W H : Z.
Hypothesis first_row : original !! 0%nat = Some row0.
Hypothesis rows : rectangular (length row0) original.
Hypothesis padding : pad original = Done (padded, W, H).

Lemma padded_size : W = len row0 + 2 /\ H = len original + 2.
Proof.
  pose proof padding as Hp. rewrite (pad_spec original row0 first_row) in Hp.
  injection Hp as _ <- <-. auto.
Qed.

Lemma foreground_interior p :
  alpha (extended original p.1 p.2) <> 0 -> interior original row0 p.
Proof. intros Hp. exact (extended_inside original _ _ _ rows Hp). Qed.

Lemma read_padded i j :
  0 <= i < H -> 0 <= j < W ->
  getitem2 padded i j = Done (extended original i j).
Proof. apply (getitem2_padded original row0); auto. Qed.

Lemma candidate_padded prevs p :
  0 <= p.1 < H -> 0 <= p.2 < W ->
  candidate padded prevs p = Done (is_candidate original prevs p).
Proof.
  destruct p as [i j]. simpl. intros Hi Hj. unfold candidate, is_candidate. simpl.
  rewrite (bind_Done_eq _ _ _ (read_padded i j Hi Hj)).
  destruct (Z.eqb_spec (alpha (extended original i j)) 0) as [E|E]; [reflexivity|].
  simpl. destruct (foreground_interior (i, j) E) as [Hi' Hj']. simpl in *.
  destruct padded_size as [HW HH].
  rewrite (bind_Done_eq _ _ _ (read_padded (i - 1) j ltac:(lia) ltac:(lia))).
  rewrite (bind_Done_eq _ _ _ (read_padded i (j + 1) ltac:(lia) ltac:(lia))).
  rewrite (bind_Done_eq _ _ _ (read_padded (i + 1) j ltac:(lia) ltac:(lia))).
  rewrite (bind_Done_eq _ _ _ (read_padded i (j - 1) ltac:(lia) ltac:(lia))).
  simpl. now destruct (_ || _).
Qed.

Lemma neighbours_padded cur p :
  interior original row0 cur -> In p (neighbours cur) -> 0 <= p.1 < H /\ 0 <= p.2 < W.
Proof.
  destruct padded_size as [HW HH]. destruct cur as [i j]. intros [Hi Hj] Hin.
  simpl in *.
  repeat (destruct Hin as [<-|Hin]; [simpl; lia|]). destruct Hin.
Qed.

Lemma first_candidate_padded prevs ps :
  (forall p, In p ps -> 0 <= p.1 < H /\ 0 <= p.2 < W) ->
  first_candidate padded prevs ps = Done (List.find (is_candidate original prevs) ps).
Proof.
  induction ps as [|p ps IH]; intros Hps; [reflexivity|].
  simpl. destruct (Hps p (or_introl eq_refl)) as [Hi Hj].
  rewrite (bind_Done_eq _ _ _ (candidate_padded prevs p Hi Hj)).
  destruct (is_candidate original prevs p); [reflexivity|].
  apply IH. intros q Hq. apply Hps. now right.
Qed.

Lemma is_candidate_true prevs p :
  is_candidate original prevs p = true ->
  boundary_pixel original p /\ ~ In p prevs.
Proof.
  unfold is_candidate, boundary_pixel. rewrite !andb_true_iff, !negb_true_iff.
  intros [[Ha Hc] Hp]. apply Z.eqb_neq in Ha. apply existsb_exists in Hc as (q & Hq & E).
  apply Z.eqb_eq in E. repeat split; eauto.
  intros Hin. apply point_in_true in Hin. congruence.
Qed.

Lemma ring_length s line : length (ring s line) = 8%nat.
Proof. unfold ring. rewrite length_drop, length_app, length_replicate. lia. Qed.

Lemma ring_step s line p popped :
  pop0 (ring s line) = Done popped -> popped ++ [p] = ring s (line ++ [p]).
Proof.
  unfold ring, pop0. intros Hpop.
  destruct (drop (length line) (replicate 8 s ++ line)) as [|x l] eqn:E; [discriminate|].
  injection Hpop as <-. rewrite length_app. change (length [p]) with 1%nat.
  replace (length line + 1)%nat with (S (length line)) by lia.
  rewrite app_assoc, drop_app_le by (rewrite length_app, length_replicate; lia).
  f_equal. replace (S (length line)) with (length line + 1)%nat by lia.
  rewrite <- drop_drop, E. reflexivity.
Qed.

Lemma spaced_snoc s line p :
  spaced line -> ~ In p (ring s line) -> spaced (line ++ [p]).
Proof.
  intros Hsp Hnot k k' q Hlt Hk Hk'.
  assert (Hk'len : (k' < length (line ++ [p]))%nat) by now apply lookup_lt_Some in Hk'.
  rewrite length_app in Hk'len. simpl in Hk'len.
  destruct (decide (k' < length line)%nat) as [Hin|Hout].
  - rewrite lookup_app_l in Hk, Hk' by lia. eauto.
  - assert (k' = length line) by lia. subst k'.
    rewrite lookup_app_r in Hk' by lia. rewrite Nat.sub_diag in Hk'.
    injection Hk' as <-. rewrite lookup_app_l in Hk by lia.
    destruct (decide (k + 8 < length line)%nat) as [|Hnear]; [assumption|].
    exfalso. apply Hnot. apply list_elem_of_In.
    apply (list_elem_of_lookup_2 _ (k + 8 - length line)). unfold ring.
    rewrite lookup_drop, lookup_app_r by (rewrite length_replicate; lia).
    rewrite length_replicate. rewrite <- Hk. f_equal. lia.
Qed.

Lemma trace_loop_safe s first fuel : forall cur line,
  interior original row0 cur -> spaced line -> Forall (boundary_pixel original) line ->
  match trace_loop fuel padded first cur (ring s line) line with
  | Done res => spaced res /\ Forall (boundary_pixel original) res
  | Raised e => e = SystemExit 1
  | OutOfFuel => True
  end.
Proof.
  induction fuel as [|fuel IH]; intros cur line Hcur Hsp Hb; [exact I|].
  simpl.
  rewrite (first_candidate_padded _ _ (fun p => neighbours_padded cur p Hcur)).
  simpl. destruct (List.find _ _) as [p|] eqn:Hfind; [|reflexivity].
  apply find_some in Hfind as [Hin Hcand].
  apply is_candidate_true in Hcand as [Hbp Hnot].
  destruct (pop0 (ring s line)) as [popped| |] eqn:Hpop.
  2,3: pose proof (ring_length s line) as Hl;
       destruct (ring s line); [discriminate Hl|discriminate Hpop].
  simpl. rewrite (ring_step s line p popped Hpop).
  assert (Hsp' : spaced (line ++ [p])) by now apply (spaced_snoc s).
  assert (Hb' : Forall (boundary_pixel original) (line ++ [p])).
  { apply Forall_app. split; [assumption|]. now constructor. }
  destruct (point_eqb p first); [now split|].
  apply IH; auto. apply foreground_interior. apply Hbp.
Qed.

Lemma padded_rows : length padded = Z.to_nat H /\ rectangular (Z.to_nat W) padded.
Proof.
  pose proof padding as Hp. rewrite (pad_spec original row0 first_row) in Hp.
  injection Hp as <- <- <-. unfold len. split.
  - simpl. rewrite length_app, length_map. simpl. lia.
  - assert (Hblank : length (replicate (length row0 + 2) BLANK)
                     = Z.to_nat (Z.of_nat (length row0) + 2))
      by (rewrite length_replicate; lia).
    unfold rectangular. constructor; [exact Hblank|].
    apply Forall_app. split; [|constructor; [exact Hblank|constructor]].
    apply Forall_forall. intros r Hr. apply list_elem_of_In, in_map_iff in Hr
      as (r' & <- & Hr'). apply list_elem_of_In in Hr'.
    pose proof rows as Hrows. unfold rectangular in Hrows.
    rewrite Forall_forall in Hrows. specialize (Hrows r' Hr').
    simpl. rewrite length_app. simpl. lia.
Qed.

Lemma pixel_at_padded (a b : nat) px :
  pixel_at padded a b = Some px -> px = extended original (Z.of_nat a) (Z.of_nat b).
Proof.
  intros Hpx. destruct padded_rows as [Hlen Hrect].
  pose proof Hpx as Hpx'.
  apply pixel_at_Some in Hpx' as (row & Hrow & Hb).
  unfold rectangular in Hrect. rewrite Forall_lookup in Hrect.
  pose proof (Hrect _ _ Hrow) as Hw. apply lookup_lt_Some in Hrow, Hb.
  assert (Hread : getitem2 padded (Z.of_nat a) (Z.of_nat b)
                  = Done (extended original (Z.of_nat a) (Z.of_nat b)))
    by (apply read_padded; lia).
  apply getitem2_pixel_at in Hread. congruence.
Qed.

Lemma padded_pixel_at (a b : nat) px :
  pixel_at original a b = Some px -> pixel_at padded (S a) (S b) = Some px.
Proof.
  intros Hpx. pose proof Hpx as Hpx'.
  apply pixel_at_Some in Hpx' as (row & Hrow & Hb).
  pose proof rows as Hrows. unfold rectangular in Hrows.
  rewrite Forall_lookup in Hrows.
  pose proof (Hrows _ _ Hrow) as Hw. apply lookup_lt_Some in Hrow, Hb.
  destruct padded_size as [HW HH]. unfold len in *.
  apply getitem2_pixel_at. rewrite read_padded by lia.
  now rewrite extended_succ, Hpx.
Qed.

(** What [find_first] finds in the padded array, and what the loop is
    started with. *)
Lemma get_line_start fuel :
  (transparent padded /\ get_line fuel original = Raised IndexError) \/
  exists (i j : nat) color,
    let first := (Z.of_nat (S i), Z.of_nat (S j)) in
    find_first padded = Done first /\ interior original row0 first /\
    pixel_at original i j = Some color /\ alpha color <> 0 /\
    (forall i' j' px', row_major_before i' j' i j ->
       pixel_at original i' j' = Some px' -> alpha px' = 0) /\
    get_line fuel original
    = (line ← trace_loop fuel padded first first (ring (H, W) []) [];
       Done (line, color, (W, H))).
Proof.
  destruct padded_rows as [Hlen Hrect]. destruct padded_size as [HW HH].
  assert (Hne : padded <> []) by (intros ->; simpl in Hlen; unfold len in *; lia).
  destruct (find_first_scan padded _ Hne Hrect)
    as [(i & j & px & Hfirst & Hpx & Halpha & Hbefore)|(Hfirst & Htr & Hout)].
  - right. pose proof (pixel_at_padded i j px Hpx) as Hext. subst px.
    pose proof (foreground_interior (Z.of_nat i, Z.of_nat j) Halpha) as Hint.
    destruct Hint as [Hi Hj]. simpl in Hi, Hj.
    destruct i as [|i]; [lia|]. destruct j as [|j]; [lia|].
    rewrite extended_succ in Hpx, Halpha.
    destruct (pixel_at original i j) as [color|] eqn:Hcolor;
      [|exfalso; now apply Halpha].
    simpl in Hpx, Halpha. exists i, j, color. cbv zeta.
    split; [exact Hfirst|]. split; [split; simpl; lia|].
    split; [exact Hcolor|]. split; [exact Halpha|]. split.
    + intros i' j' px' Hb Hpx'. apply (Hbefore (S i') (S j') px').
      * unfold row_major_before in *. lia.
      * now apply padded_pixel_at.
    + unfold get_line. rewrite padding. simpl. rewrite Hfirst. simpl.
      rewrite (bind_Done_eq _ _ color); [reflexivity|].
      apply pixel_at_Some in Hpx as (row & Hrow & Hb).
      exact (getitem2_nat padded (S i) (S j) row color Hrow Hb).
  - left. split; [exact Htr|]. unfold get_line. rewrite padding. simpl.
    rewrite Hfirst. simpl. unfold getitem2, py_index.
    destruct (Z.leb_spec 0 (len padded)); [|unfold len in *; lia].
    unfold len. rewrite Nat2Z.id, lookup_ge_None_2 by lia. reflexivity.
Qed.

(** All that the run of [get_line] shows, in one statement. *)
Lemma get_line_outcome fuel :
  match get_line fuel original with
  | Done (line, color, size) =>
      spaced line /\ Forall (boundary_pixel original) line /\ size = (W, H) /\
      exists i j : nat,
        pixel_at original i j = Some color /\ alpha color <> 0 /\
        (forall i' j' px', row_major_before i' j' i j ->
           pixel_at original i' j' = Some px' -> alpha px' = 0) /\
        last line = Some (Z.of_nat i + 1, Z.of_nat j + 1)
  | Raised e => (e = IndexError /\ transparent padded) \/ e = SystemExit 1
  | OutOfFuel => True
  end.
Proof.
  destruct (get_line_start fuel)
    as [[Htr ->]|(i & j & c & Hfirst & Hint & Hc & Halpha & Hbefore & ->)];
    [now left|].
  pose proof (trace_loop_safe (H, W) (Z.of_nat (S i), Z.of_nat (S j)) fuel
                (Z.of_nat (S i), Z.of_nat (S j)) [] Hint) as Hsafe.
  destruct (trace_loop _ _ _ _ _ _) as [line|e|] eqn:Hrun; simpl; [| |exact I].
  - destruct Hsafe as [Hsp Hb]; [|constructor|].
    { intros k k' p _ Hk. discriminate Hk. }
    split; [exact Hsp|]. split; [exact Hb|]. split; [reflexivity|].
    exists i, j. repeat (split; [assumption|]).
    apply trace_loop_spec in Hrun as (body & -> & _ & _).
    simpl. rewrite last_snoc. f_equal. f_equal; lia.
  - right. apply Hsafe; [|constructor].
    intros k k' p _ Hk. discriminate Hk.
Qed.

End Tracing.

Lemma get_line_rectangular fuel (original : list (list rgba)) w :
  rectangular w original ->
  match get_line fuel original with
  | Done (line, color, size) =>
      spaced line /\ Forall (boundary_pixel original) line /\
      size = (Z.of_nat w + 2, len original + 2) /\
      exists i j : nat,
        pixel_at original i j = Some color /\ alpha color <> 0 /\
        (forall i' j' px', row_major_before i' j' i j ->
           pixel_at original i' j' = Some px' -> alpha px' = 0) /\
        last line = Some (Z.of_nat i + 1, Z.of_nat j + 1)
  | Raised e =>
      (e = IndexError /\ forall i j px, pixel_at original i j = Some px -> alpha px = 0)
      \/ e = SystemExit 1
  | OutOfFuel => True
  end.
Proof.
  intros Hrect. destruct original as [|row0 rest] eqn:Horig.
  { destruct fuel; simpl; left; (split; [reflexivity|]);
      intros i j px Hpx; apply pixel_at_Some in Hpx as (row & Hrow & _);
      discriminate Hrow. }
  rewrite <- Horig in *.
  assert (H0 : original !! 0%nat = Some row0) by now rewrite Horig.
  assert (Hw : length row0 = w) by (rewrite Horig in Hrect; now inversion Hrect).
  subst w. clear Horig.
  pose proof (pad_spec original row0 H0) as Hpad.
  pose proof (get_line_outcome original row0 _ _ _ H0 Hrect Hpad fuel) as Hout.
  destruct (get_line fuel original) as [[[line color] size]|e|]; [exact Hout| |exact I].
  destruct Hout as [[-> Htr] | ->]; [left|now right].
  split; [reflexivity|]. intros i j px Hpx.
  pose proof (padded_pixel_at original row0 _ _ _ H0 Hrect Hpad i j px Hpx) as Hp.
  apply pixel_at_Some in Hp as (row & Hrow & Hb).
  unfold transparent in Htr. rewrite Forall_lookup in Htr.
  specialize (Htr _ _ Hrow). rewrite Forall_lookup in Htr. exact (Htr _ _ Hb).
Qed.

(** X2.  On a rectangular image every point of the contour that [get_line]
    returns is, in the coordinates of the padded array, a foreground pixel
    of the image with a transparent pixel or the outside of the image
    directly above, right of, below or left of it. *)
Theorem get_line_traces_boundary fuel (original : ndarray) w line color size :
  rectangular w original ->
  get_line fuel original = Done (line, color, size) ->
  Forall (boundary_pixel original) line.
Proof.
  intros Hrect Hrun. pose proof (get_line_rectangular fuel original w Hrect) as Hout.
  rewrite Hrun in Hout. apply Hout.
Qed.

Lemma get_line_traces_boundary_witness :
  exists line color size,
    get_line 30 square7 = Done (line, color, size) /\
    length line = 24%nat /\ Forall (boundary_pixel square7) line.
Proof.
  destruct (get_line 30 square7) as [[[line color] size]| |] eqn:E;
    [|vm_compute in E; discriminate E..].
  exists line, color, size. split; [reflexivity|]. split.
  - vm_compute in E. now injection E as <- _ _.
  - apply (get_line_traces_boundary 30 square7 7 line color size);
      [repeat constructor|exact E].
Defined.

(** X3.  On a rectangular image two occurrences of a point in the returned
    contour have at least eight other entries between them: their indices
    differ by nine or more.  (Eight it can be: see the witness.) *)
Theorem get_line_revisits_are_spaced fuel (original : ndarray) w line color size :
  rectangular w original ->
  get_line fuel original = Done (line, color, size) ->
  forall k k' p, (k < k')%nat ->
    line !! k = Some p -> line !! k' = Some p -> (k + 9 <= k')%nat.
Proof.
  intros Hrect Hrun k k' p Hlt Hk Hk'.
  pose proof (get_line_rectangular fuel original w Hrect) as Hout.
  rewrite Hrun in Hout. destruct Hout as [Hsp _].
  pose proof (Hsp k k' p Hlt Hk Hk'). lia.
Qed.

(** On [hooked4] the contour is at (2, 2) at the indices 1 and 10, with
    exactly eight entries between. *)
Lemma get_line_revisits_are_spaced_witness :
  exists line color size,
    get_line 30 hooked4 = Done (line, color, size) /\
    line !! 1%nat = Some (2, 2) /\ line !! 10%nat = Some (2, 2) /\
    forall k k' p, (k < k')%nat ->
      line !! k = Some p -> line !! k' = Some p -> (k + 9 <= k')%nat.
Proof.
  destruct (get_line 30 hooked4) as [[[line color] size]| |] eqn:E;
    [|vm_compute in E; discriminate E..].
  exists line, color, size. split; [reflexivity|].
  split; [vm_compute in E; now injection E as <- _ _|].
  split; [vm_compute in E; now injection E as <- _ _|].
  apply (get_line_revisits_are_spaced 30 hooked4 4 line color size);
    [repeat constructor|exact E].
Defined.

(** X4.  On a rectangular image the colour that [get_line] returns is the
    pixel of the first foreground position (i, j) of the image in the
    row-major scan, the contour ends at (i + 1, j + 1), and the returned
    size is the width and the height of the image, each plus 2. *)
Theorem get_line_colour_and_size fuel (original : ndarray) w line color size :
  rectangular w original ->
  get_line fuel original = Done (line, color, size) ->
  size = (Z.of_nat w + 2, len original + 2) /\
  exists i j : nat,
    pixel_at original i j = Some color /\ alpha color <> 0 /\
    (forall i' j' px', row_major_before i' j' i j ->
       pixel_at original i' j' = Some px' -> alpha px' = 0) /\
    last line = Some (Z.of_nat i + 1, Z.of_nat j + 1).
Proof.
  intros Hrect Hrun. pose proof (get_line_rectangular fuel original w Hrect) as Hout.
  rewrite Hrun in Hout. destruct Hout as (_ & _ & Hsize & Hrest). auto.
Qed.

Lemma get_line_colour_and_size_witness :
  let pic : ndarray := [[BLANK; BLANK; BLANK]; [BLANK; red_px; blue_px]] in
  exists line color size,
    get_line 10 pic = Done (line, color, size) /\
    size = (5, 4) /\
    exists i j : nat,
      pixel_at pic i j = Some color /\ alpha color <> 0 /\
      (forall i' j' px', row_major_before i' j' i j ->
         pixel_at pic i' j' = Some px' -> alpha px' = 0) /\
      last line = Some (Z.of_nat i + 1, Z.of_nat j + 1).
Proof.
  intros pic.
  destruct (get_line 10 pic) as [[[line color] size]| |] eqn:E;
    [|vm_compute in E; discriminate E..].
  exists line, color, size. split; [reflexivity|].
  apply (get_line_colour_and_size 10 pic 3 line color size);
    [repeat constructor|exact E].
Defined.

(** X5.  On a rectangular image that has a foreground pixel, [get_line]
    raises no exception but the [exit(1)] of a trace that finds no next
    point: no index is out of range. *)
Theorem get_line_only_exits fuel (original : ndarray) w (i j : nat) px :
  rectangular w original ->
  pixel_at original i j = Some px -> alpha px <> 0 ->
  forall e, get_line fuel original = Raised e -> e = SystemExit 1.
Proof.
  intros Hrect Hpx Halpha e Hrun.
  pose proof (get_line_rectangular fuel original w Hrect) as Hout.
  rewrite Hrun in Hout. destruct Hout as [[_ Htr]|Hexit]; [|exact Hexit].
  exfalso. apply Halpha. exact (Htr i j px Hpx).
Qed.

Lemma get_line_only_exits_witness :
  get_line 10 [[red_px]] = Raised (SystemExit 1).
Proof.
  destruct (get_line 10 [[red_px]]) as [r|e|] eqn:E;
    [vm_compute in E; discriminate E| |vm_compute in E; discriminate E].
  f_equal.
  apply (get_line_only_exits 10 [[red_px]] 1 0 0 red_px);
    [repeat constructor|reflexivity|discriminate|exact E].
Defined.

(** X13.  On a rectangular image every point (i, j) of the returned contour
    lies inside the returned size (width, height) with a margin of one
    pixel on each side: 0 < i < height - 1 and 0 < j < width - 1. *)
Theorem get_line_inside_frame fuel (original : ndarray) w line color size :
  rectangular w original ->
  get_line fuel original = Done (line, color, size) ->
  Forall (fun p : point => 0 < p.1 < size.2 - 1 /\ 0 < p.2 < size.1 - 1) line.
Proof.
  intros Hrect Hrun. pose proof (get_line_rectangular fuel original w Hrect) as Hout.
  rewrite Hrun in Hout. destruct Hout as (_ & Hb & -> & _).
  eapply Forall_impl; [exact Hb|]. intros p [Hp _]. simpl.
  destruct (extended_inside original w p.1 p.2 Hrect Hp). lia.
Qed.

Lemma get_line_inside_frame_witness :
  exists line color size,
    get_line 30 square7 = Done (line, color, size) /\
    Forall (fun p : point => 0 < p.1 < size.2 - 1 /\ 0 < p.2 < size.1 - 1) line.
Proof.
  destruct (get_line 30 square7) as [[[line color] size]| |] eqn:E;
    [|vm_compute in E; discriminate E..].
  exists line, color, size. split; [reflexivity|].
  apply (get_line_inside_frame 30 square7 7 line color size);
    [repeat constructor|exact E].
Defined.

(** ** [flood_fill]: the region that is filled *)

Lemma region_fillable img seed p : region img seed p -> fillable img p.
Proof. now destruct 1. Qed.

Lemma getpixel_putpixel img xy color q :
  getpixel (putpixel img xy color) q
  = if point_eqb q xy then clip color else getpixel img q.
Proof. reflexivity. Qed.

Lemma region_inv_init img seed color : region_inv img seed color (FillState img [seed] []).
Proof.
  constructor; simpl; auto.
  - intros q [<-|[]]. now left.
  - intros p q [_ Hwp] Hnw. congruence.
Qed.

Lemma region_inv_step img seed color st :
  rgba_eqb (clip color) WHITE = false ->
  region_inv img seed color st -> region_inv img seed color (fill_step color st).
Proof.
  intros Hcolor Hinv. unfold fill_step.
  destruct (stack st) as [|[x y] rest] eqn:Es; [exact Hinv|].
  destruct Hinv as [Hw Hh Hp Hs Hf Hseed].
  assert (Hpop : forall c', width c' = width img -> height c' = height img ->
            (forall p, getpixel c' p = getpixel img p \/
                       (region img seed p /\ getpixel c' p = clip color)) ->
            c' = canvas st -> is_white c' (x, y) = false \/ ~ fillable img (x, y) ->
            region_inv img seed color (FillState c' rest (accesses st))).
  { intros c' Hw' Hh' Hp' -> Hdead. constructor; simpl; auto.
    - intros q Hq. apply Hs. rewrite Es. now right.
    - intros p q Hfp Hwp Hq Hfq.
      destruct (Hf p q Hfp Hwp Hq Hfq) as [Hdone|Hst]; [now left|].
      rewrite Es in Hst. destruct Hst as [<-|Hin]; [|now right].
      destruct Hdead as [Hdead|Hdead]; [now left|contradiction].
    - intros Hfs. destruct (Hseed Hfs) as [Hdone|Hst]; [now left|].
      rewrite Es in Hst. destruct Hst as [<-|Hin]; [|now right].
      destruct Hdead as [Hdead|Hdead]; [now left|contradiction]. }
  assert (Hsame : forall a, region_inv img seed color (FillState (canvas st) rest a) ->
                            forall b, region_inv img seed color (FillState (canvas st) rest b)).
  { intros a [] b. now constructor. }
  destruct (inside (canvas st) x y) eqn:Hin.
  2:{ apply (Hpop (canvas st)); auto. right. intros [Hin' _].
      rewrite (inside_same_size img (canvas st) x y Hw Hh) in Hin. simpl in Hin'.
      congruence. }
  destruct (rgba_eqb (getpixel (canvas st) (x, y)) WHITE) eqn:Hwhite.
  2:{ apply (Hsame (accesses st)). apply (Hpop (canvas st)); auto. }
  assert (Hreg : region img seed (x, y)).
  { assert (Hfill : fillable img (x, y)).
    { split; [simpl; now rewrite <- (inside_same_size img (canvas st) x y Hw Hh)|].
      unfold is_white. destruct (Hp (x, y)) as [<-|[_ Hc]]; [exact Hwhite|].
      rewrite Hc in Hwhite. congruence. }
    destruct (Hs (x, y) ltac:(rewrite Es; now left)) as [Heq|(p & Hrp & Hq)].
    - rewrite <- Heq. now constructor.
    - now apply (region_next img seed p). }
  constructor; cbn [canvas stack]; auto.
  - intros p. rewrite getpixel_putpixel. destruct (point_eqb p (x, y)) eqn:E.
    + apply point_eqb_eq in E. subst p. now right.
    + apply Hp.
  - intros q Hq. change (In q (four_neighbours (x, y) ++ rest)) in Hq.
    apply in_app_or in Hq as [Hq|Hq]; [right; eauto|].
    apply Hs. rewrite Es. now right.
  - intros p q Hfp Hwp Hq Hfq.
    change (is_white (putpixel (canvas st) (x, y) color) q = false \/
            In q (four_neighbours (x, y) ++ rest)).
    rewrite is_white_putpixel in *. 
    destruct (point_eqb q (x, y)) eqn:Eq; [now left|].
    destruct (point_eqb p (x, y)) eqn:Ep.
    + apply point_eqb_eq in Ep. subst p. right. apply in_or_app. now left.
    + destruct (Hf p q Hfp Hwp Hq Hfq) as [Hdone|Hst]; [now left|].
      rewrite Es in Hst. destruct Hst as [<-|Hst].
      * assert (point_eqb (x, y) (x, y) = true) by now apply point_eqb_eq. congruence.
      * right. apply in_or_app. now right.
  - intros Hfs.
    change (is_white (putpixel (canvas st) (x, y) color) seed = false \/
            In seed (four_neighbours (x, y) ++ rest)).
    rewrite is_white_putpixel.
    destruct (point_eqb seed (x, y)) eqn:Eq; [now left|].
    destruct (Hseed Hfs) as [Hdone|Hst]; [now left|].
    rewrite Es in Hst. destruct Hst as [<-|Hst].
    * assert (point_eqb (x, y) (x, y) = true) by now apply point_eqb_eq. congruence.
    * right. apply in_or_app. now right.
Qed.

Lemma region_inv_run img seed color n :
  rgba_eqb (clip color) WHITE = false ->
  region_inv img seed color (fill_run n color (FillState img [seed] [])).
Proof.
  intros Hcolor. induction n as [|n IH]; [apply region_inv_init|].
  unfold fill_run in *. simpl. now apply region_inv_step.
Qed.

(** X6.  The fill colour counts as Pillow stores it, each channel (an int
    that Pillow accepts) clamped to 0..255.  A fill whose stored colour is
    not opaque white and that returns has given the stored colour to exactly
    the opaque-white pixels inside the image that are joined to the seed by
    a path of such pixels, each directly above, below, left or right of the
    one before; every other pixel and the size of the image are as
    before. *)
Theorem flood_fill_fills_region fuel img xy color img' :
  int_channels color ->
  clip color <> WHITE ->
  flood_fill fuel img xy color = Done img' ->
  width img' = width img /\ height img' = height img /\
  forall p,
    (region img xy p -> getpixel img' p = clip color) /\
    (~ region img xy p -> getpixel img' p = getpixel img p).
Proof.
  intros _ Hcolor Hrun.
  assert (Hc : rgba_eqb (clip color) WHITE = false).
  { destruct (rgba_eqb (clip color) WHITE) eqn:E; [|reflexivity].
    apply rgba_eqb_eq in E. contradiction. }
  unfold flood_fill in Hrun. inv_bind Hrun. injection Hrun as <-.
  apply fill_loop_is_run in Ha as (n & -> & Hempty).
  destruct (region_inv_run img xy color n Hc) as [Hw Hh Hp Hs Hf Hseed].
  set (st := fill_run n color (FillState img [xy] [])) in *.
  rewrite Hempty in *.
  split; [exact Hw|]. split; [exact Hh|].
  assert (Hdone : forall p, region img xy p -> is_white (canvas st) p = false).
  { induction 1 as [Hfs|p q Hrp IH Hq Hfq].
    - destruct (Hseed Hfs) as [?|[]]; assumption.
    - destruct (Hf p q (region_fillable _ _ _ Hrp) IH Hq Hfq) as [?|[]]; assumption. }
  intros p. split.
  - intros Hrp. destruct (Hp p) as [Heq|[_ Heq]]; [|exact Heq].
    pose proof (Hdone p Hrp) as Hnw.
    destruct (region_fillable _ _ _ Hrp) as [_ Hwp].
    unfold is_white in *. rewrite Heq in Hnw. congruence.
  - intros Hnot. destruct (Hp p) as [Heq|[Hrp _]]; [exact Heq|contradiction].
Qed.

Lemma flood_fill_fills_region_witness :
  let img := putpixel (Image_new 3 1 WHITE) (1, 0) blue_px in
  exists img',
    flood_fill 10 img (0, 0) (RGBA 300 (-4) 0 255) = Done img' /\
    width img' = 3 /\ height img' = 1 /\
    forall p,
      (region img (0, 0) p -> getpixel img' p = red_px) /\
      (~ region img (0, 0) p -> getpixel img' p = getpixel img p).
Proof.
  intros img.
  destruct (flood_fill 10 img (0, 0) (RGBA 300 (-4) 0 255)) as [img'| |] eqn:E;
    [|vm_compute in E; discriminate E..].
  exists img'. split; [reflexivity|].
  apply (flood_fill_fills_region 10 img (0, 0) (RGBA 300 (-4) 0 255) img');
    [vm_compute; intuition discriminate|discriminate|exact E].
Defined.

(** ** The outline of a frame (lines 288-290) *)

Lemma for_each_map {A B C} (f : B -> outcome C) (g : A -> B) (h : A -> C) xs :
  (forall x, In x xs -> f (g x) = Done (h x)) ->
  for_each f (map g xs) = Done (map h xs).
Proof.
  induction xs as [|x xs IH]; intros Hf; [reflexivity|].
  simpl. rewrite (Hf x (or_introl eq_refl)). simpl.
  rewrite IH by (intros y Hy; apply Hf; now right). reflexivity.
Qed.

(** The index that [i - 1] stands for in a list of [n] entries. *)
Lemma py_index_pred {A} (l : list A) (k : nat) x :
  l !! (match k with O => length l - 1 | S k' => k' end)%nat = Some x ->
  py_index l (Z.of_nat k - 1) = Done x.
Proof.
  intros Hx. destruct k as [|k].
  - pose proof (lookup_lt_Some _ _ _ Hx) as Hlt. unfold py_index, len.
    change (Z.of_nat 0 - 1) with (-1).
    destruct (Z.leb_spec (- Z.of_nat (length l)) (-1)); [|lia].
    replace (Z.to_nat (Z.of_nat (length l) + -1)) with (length l - 1)%nat by lia.
    change (0 <=? -1) with false. cbv iota. now rewrite Hx.
  - replace (Z.of_nat (S k) - 1) with (Z.of_nat k) by lia. now apply py_index_nat.
Qed.

Lemma outline_segments_closed (l : list point) (d : point) :
  l <> [] ->
  outline_segments l
  = Done (map (fun k => (default d (l !! (match k with O => length l - 1 | S k' => k' end)%nat),
                         default d (l !! k)))
              (seq 0 (length l - 1))
          ++ [(default d (l !! (length l - 1)%nat), default d (l !! 0%nat))]).
Proof.
  intros Hne. assert (Hlen : (0 < length l)%nat) by (destruct l; [congruence|simpl; lia]).
  unfold outline_segments, range.
  replace (Z.to_nat (len l - 1)) with (length l - 1)%nat by (unfold len; lia).
  rewrite (for_each_map _ _
             (fun k => (default d (l !! (match k with O => length l - 1 | S k' => k' end)%nat),
                        default d (l !! k)))).
  - rewrite (bind_Done_eq _ _ _ eq_refl).
    destruct (lookup_lt_is_Some_2 l (length l - 1)) as [p Hp]; [lia|].
    destruct (lookup_lt_is_Some_2 l 0) as [q Hq]; [lia|].
    rewrite (bind_Done_eq _ _ p) by (apply (py_index_pred l 0); exact Hp).
    rewrite (bind_Done_eq _ _ q) by (apply (py_index_nat l 0); exact Hq).
    now rewrite Hp, Hq.
  - intros k Hk. apply in_seq in Hk.
    destruct (lookup_lt_is_Some_2 l (match k with O => length l - 1 | S k' => k' end))
      as [p Hp]; [destruct k; lia|].
    destruct (lookup_lt_is_Some_2 l k) as [q Hq]; [lia|].
    rewrite (bind_Done_eq _ _ p) by (apply py_index_pred; exact Hp).
    rewrite (bind_Done_eq _ _ q) by (apply py_index_nat; exact Hq).
    now rewrite Hp, Hq.
Qed.

(** X7.  For three or more distinct points the outline is drawn with as many
    calls of [draw.line] as there are points: the first and the last call
    both draw the closing segment from the last point to the first, each
    segment from a point to the next one is drawn once, in that direction,
    except the segment between the last two points, which is drawn in
    neither direction. *)
Theorem outline_leaves_last_segment_open (l : list point) :
  NoDup l -> (3 <= length l)%nat ->
  exists calls,
    outline_segments l = Done calls /\
    length calls = length l /\
    (forall p q, last l = Some p -> head l = Some q ->
       head calls = Some (p, q) /\ last calls = Some (p, q)) /\
    (forall k p q, l !! k = Some p -> l !! S k = Some q ->
       (In (p, q) calls <-> (S (S k) < length l)%nat) /\ ~ In (q, p) calls).
Proof.
  intros Hnd Hlen. destruct l as [|d l'] eqn:El; [simpl in Hlen; lia|].
  rewrite <- El in *. assert (Hne : l <> []) by (rewrite El; discriminate).
  set (prev := fun k : nat => match k with O => (length l - 1)%nat | S k' => k' end).
  set (call := fun k : nat => (default d (l !! prev k), default d (l !! k))).
  assert (Hat : forall k x, l !! k = Some x -> default d (l !! k) = x)
    by (intros k x ->; reflexivity).
  assert (Hinj : forall a b x, l !! a = Some x -> (b < length l)%nat ->
                   default d (l !! b) = x -> a = b).
  { intros a b x Ha Hb Hx. destruct (lookup_lt_is_Some_2 l b Hb) as [y Hy].
    rewrite Hy in Hx. simpl in Hx. subst y. exact (NoDup_lookup l a b x Hnd Ha Hy). }
  assert (Hin : forall p q a b, l !! a = Some p -> l !! b = Some q ->
            (In (p, q) (map call (seq 0 (length l - 1)) ++ [call (length l)%nat]) <->
             (exists k, (k < length l - 1)%nat /\ a = prev k /\ b = k))).
  { intros p q a b Ha Hb. rewrite in_app_iff, in_map_iff. split.
    - intros [(k & Hk & Hseq)|[Hk|[]]].
      + apply in_seq in Hseq. injection Hk as Hp Hq. exists k. split; [lia|].
        split; [apply (Hinj a (prev k) p)|apply (Hinj b k q)]; auto;
          destruct k; simpl; lia.
      + injection Hk as Hp Hq. exists 0%nat. split; [lia|].
        assert (Hprev : prev (length l) = prev 0%nat)
          by (unfold prev; destruct (length l); lia).
        rewrite Hprev in Hp. rewrite lookup_ge_None_2 in Hq by lia. simpl in Hq.
        subst q. split.
        * apply (Hinj a (prev 0%nat) p); auto. simpl. lia.
        * apply (NoDup_lookup l b 0%nat d Hnd Hb). now rewrite El.
    - intros (k & Hk & -> & ->). left. exists k. split.
      + unfold call. now rewrite (Hat _ _ Ha), (Hat _ _ Hb).
      + apply in_seq. lia. }
  assert (Hlast : call (length l) = (default d (l !! (length l - 1)%nat), default d (l !! 0%nat))).
  { unfold call. f_equal.
    - simpl. destruct (length l) eqn:E; [lia|]. simpl. do 2 f_equal. lia.
    - rewrite lookup_ge_None_2 by lia. rewrite El. reflexivity. }
  exists (map call (seq 0 (length l - 1)) ++ [call (length l)]).
  split; [rewrite Hlast; exact (outline_segments_closed l d Hne)|].
  split; [|split].
  - rewrite length_app, length_map, length_seq. simpl. lia.
  - intros p q Hp Hq. rewrite last_lookup in Hp. rewrite El in Hq. simpl in Hq.
    injection Hq as <-.
    replace (Init.Nat.pred (length l)) with (length l - 1)%nat in Hp by lia.
    split.
    + destruct (length l - 1)%nat as [|m] eqn:E; [lia|]. simpl. f_equal.
      unfold call, prev. rewrite ?E, Hp, El. reflexivity.
    + rewrite last_snoc, Hlast, Hp. rewrite El. reflexivity.
  - intros k p q Hp Hq. pose proof (lookup_lt_Some _ _ _ Hq) as Hk. split.
    + rewrite (Hin p q k (S k) Hp Hq). split.
      * intros (j & Hj & Hprev & ->). lia.
      * intros Hlt. exists (S k). split; [lia|]. auto.
    + rewrite (Hin q p (S k) k Hq Hp). intros (j & Hj & Hprev & ->).
      destruct j; simpl in Hprev; lia.
Qed.

Lemma outline_leaves_last_segment_open_witness :
  let l : list point := [(0, 0); (3, 0); (3, 3); (0, 3)] in
  exists calls,
    outline_segments l = Done calls /\
    length calls = length l /\
    (forall p q, last l = Some p -> head l = Some q ->
       head calls = Some (p, q) /\ last calls = Some (p, q)) /\
    (forall k p q, l !! k = Some p -> l !! S k = Some q ->
       (In (p, q) calls <-> (S (S k) < length l)%nat) /\ ~ In (q, p) calls).
Proof.
  apply (outline_leaves_last_segment_open [(0, 0); (3, 0); (3, 3); (0, 3)]).
  - apply (bool_decide_unpack _). vm_compute. reflexivity.
  - simpl. lia.
Defined.

(** ** Resampling: the point that is always deleted *)

(** Every pass starts its cursor at 0.0: a pass on a longer line deletes
    the first point of that line. *)
Lemma resample_loop_tail a b :
  a <> b ->
  forall fuel s,
    len (deref b s) < len (deref a s) ->
    len (deref a s) - len (deref b s) < Z.of_nat fuel ->
    exists s',
      resample_loop fuel a b s = Done s' /\
      deref a s' `sublist_of` tail (deref a s).
Proof.
  intros Hab fuel s Hlen Hfuel.
  assert (H0 : 0 <= len (deref b s)) by (unfold len; lia).
  destruct fuel as [|[|fuel]]; [lia..|].
  cbn [resample_loop]. destruct (Z.eqb_spec (len (deref a s)) (len (deref b s)));
    [lia|]. cbn [negb].
  set (inc := fdiv _ _).
  assert (Hinc : positive_sign inc)
    by (apply fdiv_positive; apply float_of_int_positive; lia).
  cbn [decimate_pass].
  assert (Hlt : float_lt_int f0 (len (deref a s)) = true)
    by (simpl; apply Z.ltb_lt; lia).
  rewrite Hlt. cbn [int_of_float f0]. rewrite (bind_Done_eq _ _ _ eq_refl).
  destruct (py_del_in_range (deref a s) 0 ltac:(lia)) as [-> Hdel].
  rewrite (bind_Done_eq _ _ _ eq_refl).
  change (Z.to_nat 0) with 0%nat in *.
  assert (Htail : delete 0%nat (deref a s) = tail (deref a s))
    by (destruct (deref a s); reflexivity).
  rewrite Htail in *. set (s1 := assign a (tail (deref a s)) s).
  assert (Ha1 : deref a s1 = tail (deref a s)) by apply deref_assign_same.
  assert (Hb1 : deref b s1 = deref b s) by now apply deref_assign_other.
  rewrite Ha1, Hb1.
  assert (Hrest : forall s2, deref b s2 = deref b s ->
            deref a s2 `sublist_of` tail (deref a s) ->
            len (deref b s) <= len (deref a s2) ->
            exists s', resample_loop (S fuel) a b s2 = Done s' /\
                       deref a s' `sublist_of` tail (deref a s)).
  { intros s2 Hb2 Hsub Hge.
    destruct (resample_loop_spec a b Hab (S fuel) s2) as (s' & Hrun & _ & _ & Hsub').
    - rewrite Hb2. lia.
    - apply sublist_length in Hsub. rewrite Hb2. unfold len in *.
      rewrite <- Htail, length_delete in Hsub; [lia|].
      apply lookup_lt_is_Some_2. lia.
    - exists s'. split; [exact Hrun|]. etransitivity; eassumption. }
  destruct (Z.eqb_spec (len (tail (deref a s))) (len (deref b s))) as [Heq|Hne].
  - rewrite (bind_Done_eq _ _ _ eq_refl). apply Hrest; [exact Hb1| |].
    + now rewrite Ha1.
    + rewrite Ha1. lia.
  - destruct (decimate_pass_spec a b inc Hab Hinc fuel (fadd f0 inc) s1)
      as (s2 & -> & Hb2 & Hsub & Hge & _).
    + now apply fadd_positive.
    + rewrite Ha1, Hb1. lia.
    + rewrite Ha1, Hb1. lia.
    + rewrite (bind_Done_eq _ _ _ eq_refl). apply Hrest.
      * congruence.
      * now rewrite <- Ha1.
      * now rewrite <- Hb1.
Qed.

(** X8.  When the two contours differ in length, resampling (with more fuel
    than the difference) deletes the first point of the longer one: the
    line it returns in its place is a subsequence of the line without its
    first point. *)
Theorem resample_drops_first_point fuel (original final : list point) :
  Z.abs (len original - len final) < Z.of_nat fuel ->
  exists s,
    resample fuel (Lines original final) = Done s /\
    ((length final < length original)%nat ->
       original_line s `sublist_of` tail original) /\
    ((length original < length final)%nat ->
       final_line s `sublist_of` tail final).
Proof.
  intros Hfuel. unfold resample, max_by_len, min_by_len. simpl.
  destruct (Z.ltb_spec (len original) (len final)) as [Hlt|Hge].
  - destruct (Z.ltb_spec (len final) (len original)) as [?|_]; [lia|].
    destruct (resample_loop_tail FinalLine OriginalLine ltac:(discriminate)
                fuel (Lines original final))
      as (s & -> & Hsub); simpl in *; [lia..|].
    exists s. unfold len in *. split; [reflexivity|]. split; [lia|auto].
  - destruct (Z.ltb_spec (len final) (len original)) as [Hlt|Hle].
    + destruct (resample_loop_tail OriginalLine FinalLine ltac:(discriminate)
                  fuel (Lines original final))
        as (s & -> & Hsub); simpl in *; [lia..|].
      exists s. unfold len in *. split; [reflexivity|]. split; [auto|lia].
    + assert (Heq : len original = len final) by lia.
      destruct fuel as [|fuel]; [lia|]. simpl.
      rewrite Z.eqb_refl. simpl.
      exists (Lines original final). unfold len in *.
      split; [reflexivity|]. split; lia.
Qed.

Lemma resample_drops_first_point_witness :
  let original : list point := [(0, 0); (0, 1); (0, 2); (0, 3); (0, 4)] in
  let final : list point := [(5, 5); (6, 6); (7, 7)] in
  exists s,
    resample 3 (Lines original final) = Done s /\
    ((length final < length original)%nat ->
       original_line s `sublist_of` tail original) /\
    ((length original < length final)%nat ->
       final_line s `sublist_of` tail final).
Proof.
  apply (resample_drops_first_point 3 [(0, 0); (0, 1); (0, 2); (0, 3); (0, 4)]
           [(5, 5); (6, 6); (7, 7)]).
  reflexivity.
Defined.

(** ** The frames of a run that saves PNG files (lines 297-299) *)

(** X9.  A run that saves PNG files saves [nframes] of them, which may be
    none: the frames rendered at the values of
    [np.linspace(0.0, 1.0, nframes)], in that order, under the numbers
    1, 2, ..., [nframes]. *)
Theorem main_numbered_frames
    (draw_line : image -> point -> point -> rgba -> image)
    fuel original final nframes duration loop out :
  main draw_line fuel original final nframes duration PNG loop = Done out ->
  exists ol oc ow oh fl fc fw fh s ts numbered,
    get_line fuel original = Done (ol, oc, (ow, oh)) /\
    get_line fuel final = Done (fl, fc, (fw, fh)) /\
    resample fuel (Lines ol fl) = Done s /\
    linspace f0 f1 nframes = Done ts /\
    out = FrameFiles PNG numbered /\
    0 <= nframes /\ Z.of_nat (length numbered) = nframes /\
    map fst numbered = map (fun k => Z.of_nat k + 1) (seq 0 (Z.to_nat nframes)) /\
    Forall2 (fun t fr =>
               render_frame draw_line fuel s oc fc (Z.max ow fw) (Z.max oh fh) t
               = Done fr) ts (map snd numbered).
Proof.
  intros H. unfold main in H.
  inv_bind H. destruct a as [[ol oc] [ow oh]].
  inv_bind H. destruct a as [[fl fc] [fw fh]].
  inv_bind H. rename a into s. inv_bind H. rename a into frames.
  unfold render_frames in Ha2. inv_bind Ha2. rename a into ts.
  apply for_each_Forall2 in Ha2. simpl in Ha2.
  pose proof (Forall2_length _ _ _ Ha2) as Hlen.
  destruct (linspace_unit_spec nframes ts Ha3) as (Hnum & Hts & _).
  assert (Hout : out = FrameFiles PNG
                         (zip (map (fun i => i + 1) (range (len frames))) frames))
    by now injection H as <-.
  clear H. unfold len, range in Hout. rewrite Nat2Z.id, map_map in Hout.
  assert (Hn : length frames = Z.to_nat nframes) by lia.
  rewrite Hn in Hout.
  assert (Hidx : length (map (fun k => Z.of_nat k + 1) (seq 0 (Z.to_nat nframes)))
                 = length frames) by now rewrite length_map, length_seq.
  exists ol, oc, ow, oh, fl, fc, fw, fh, s, ts,
    (zip (map (fun k => Z.of_nat k + 1) (seq 0 (Z.to_nat nframes))) frames).
  split; [exact Ha|]. split; [exact Ha0|]. split; [exact Ha1|].
  split; [exact Ha3|]. split; [exact Hout|]. split; [exact Hnum|].
  split; [rewrite length_zip, Hidx; lia|]. split.
  - apply (fst_zip (A:=Z)). lia.
  - rewrite (snd_zip (A:=Z)) by lia. exact Ha2.
Qed.

Lemma main_numbered_frames_witness :
  exists out ol oc ow oh fl fc fw fh s ts numbered,
    main plot_line 20 square2 blue_square2 3 (float_of_int 7) PNG 0 = Done out /\
    get_line 20 square2 = Done (ol, oc, (ow, oh)) /\
    get_line 20 blue_square2 = Done (fl, fc, (fw, fh)) /\
    resample 20 (Lines ol fl) = Done s /\
    linspace f0 f1 3 = Done ts /\
    out = FrameFiles PNG numbered /\
    0 <= 3 /\ Z.of_nat (length numbered) = 3 /\
    map fst numbered = [1; 2; 3] /\
    Forall2 (fun t fr =>
               render_frame plot_line 20 s oc fc (Z.max ow fw) (Z.max oh fh) t
               = Done fr) ts (map snd numbered).
Proof.
  destruct (main plot_line 20 square2 blue_square2 3 (float_of_int 7) PNG 0)
    as [out|e|] eqn:E; [|vm_compute in E; discriminate E..].
  destruct (main_numbered_frames plot_line 20 square2 blue_square2 3
              (float_of_int 7) 0 out E)
    as (ol & oc & ow & oh & fl & fc & fw & fh & s & ts & numbered & Hrest).
  exists out, ol, oc, ow, oh, fl, fc, fw, fh, s, ts, numbered.
  split; [reflexivity|exact Hrest].
Defined.

(** ** The command line *)

Section CommandLineFacts.

Variable int_of_string : string -> option Z.
Variable float_of_string : string -> option float.
Variables isfile isdir : string -> bool.
Variable makedirs : string -> option exn.

Local Abbreviation parse := (parse_options int_of_string float_of_string).

Lemma checked_int_Done ok s n :
  checked_int int_of_string ok s = Done n -> ok n = true.
Proof.
  unfold checked_int. destruct (int_of_string s) as [m|]; [|discriminate].
  destruct (ok m) eqn:E; [|discriminate]. now intros [= <-].
Qed.

Lemma checked_float_Done s d :
  checked_float float_of_string s = Done d -> float_gt_0 d = true.
Proof.
  unfold checked_float. destruct (float_of_string s) as [m|]; [|discriminate].
  destruct (float_gt_0 m) eqn:E; [|discriminate]. now intros [= <-].
Qed.

Lemma checked_int_Raised ok s e :
  checked_int int_of_string ok s = Raised e -> e = SystemExit 1.
Proof.
  unfold checked_int. destruct (int_of_string s) as [m|]; [|now intros [= <-]].
  destruct (ok m); [discriminate|now intros [= <-]].
Qed.

Lemma checked_float_Raised s e :
  checked_float float_of_string s = Raised e -> e = SystemExit 1.
Proof.
  unfold checked_float. destruct (float_of_string s) as [m|]; [|now intros [= <-]].
  destruct (float_gt_0 m); [discriminate|now intros [= <-]].
Qed.

(** The loop keeps what its assertions have checked. *)
Lemma parse_options_checked n : forall argv o o',
  (length argv <= n)%nat ->
  parse argv o = Done o' -> checked o -> checked o'.
Proof.
  induction n as [|n IH]; intros argv o o' Hlen Hrun Ho.
  { destruct argv; [|simpl in Hlen; lia]. now injection Hrun as <-. }
  destruct argv as [|arg argv]; [now injection Hrun as <-|].
  simpl in Hlen. simpl in Hrun.
  destruct Ho as (Hn & Hl & Hd).
  repeat match type of Hrun with
  | (if ?c then _ else _) = _ => destruct c
  | (match ?l with [] => _ | _ :: _ => _ end) = _ => destruct l; [discriminate|]
  | (_ ≫= _) = Done _ => inv_bind Hrun
  end;
  try discriminate;
  repeat match goal with
  | H : checked_int _ _ _ = Done _ |- _ => apply checked_int_Done in H
  | H : checked_float _ _ = Done _ |- _ => apply checked_float_Done in H
  end;
  (eapply IH; [|exact Hrun|]; [simpl in *; lia|]);
  unfold checked; simpl; repeat split; auto; lia.
Qed.

(** A failure of the loop is an [exit]; it is the [exit(0)] of [help] only
    when [-h] or [--help] is among the arguments. *)
Lemma parse_options_exits n : forall argv o e,
  (length argv <= n)%nat ->
  parse argv o = Raised e ->
  e = SystemExit 1 \/
  (e = SystemExit 0 /\ (In "-h"%string argv \/ In "--help"%string argv)).
Proof.
  induction n as [|n IH]; intros argv o e Hlen Hrun.
  { destruct argv; [discriminate|simpl in Hlen; lia]. }
  destruct argv as [|arg argv]; [discriminate|].
  simpl in Hlen. simpl in Hrun.
  assert (Hrec : forall argv' o',
            (length argv' <= n)%nat -> (forall x, In x argv' -> In x (arg :: argv)) ->
            parse argv' o' = Raised e ->
            e = SystemExit 1 \/
            (e = SystemExit 0 /\
             (In "-h"%string (arg :: argv) \/ In "--help"%string (arg :: argv)))).
  { intros argv' o' Hlen' Hsub Hrun'.
    destruct (IH argv' o' e Hlen' Hrun') as [?|(? & [Hin|Hin])]; auto. }
  assert (Hbind : forall A (m : outcome A) (k : A -> outcome options),
            (m ≫= k) = Raised e ->
            m = Raised e \/ exists a, m = Done a /\ k a = Raised e).
  { intros A m k. destruct m; simpl; intros H;
      [right; eauto|left; now injection H as ->|discriminate H]. }
  destruct (String.eqb arg "-o").
  { destruct argv as [|path argv]; [left; congruence|].
    refine (Hrec argv _ _ _ Hrun); [simpl in Hlen; lia|].
    intros x Hx. right. now right. }
  assert (Hnext : forall o', parse argv o' = Raised e ->
            e = SystemExit 1 \/
            (e = SystemExit 0 /\
             (In "-h"%string (arg :: argv) \/ In "--help"%string (arg :: argv)))).
  { intros o' Hrun'. refine (Hrec argv o' _ _ Hrun'); [lia|].
    intros x Hx. now right. }
  repeat match type of Hrun with
  | (if String.prefix ?p arg then _ else _) = _ => destruct (String.prefix p arg)
  | (_ ≫= _) = Raised _ =>
      apply Hbind in Hrun as [Hrun|(? & _ & Hrun)];
        [left; first [exact (checked_int_Raised _ _ _ Hrun)
                     |exact (checked_float_Raised _ _ Hrun)]
        |exact (Hnext _ Hrun)]
  end.
  - destruct (String.eqb arg "--gif"); [exact (Hnext _ Hrun)|].
    destruct (String.prefix "-f" arg); [exact (Hnext _ Hrun)|].
    destruct (String.eqb_spec arg "-h") as [->|_].
    { injection Hrun as <-. right. split; [reflexivity|]. left. now left. }
    destruct (String.eqb_spec arg "--help") as [->|_].
    { injection Hrun as <-. right. split; [reflexivity|]. right. now left. }
    simpl in Hrun. destruct (negb _); exact (Hnext _ Hrun).
Qed.

(** X10.  The options that the command line is parsed into are valid: a run
    that gets past line 253 has a positive number of frames, a loop count
    of at least -1, a duration above 0, two input paths and an output path
    that are not empty; for a GIF the output path is no directory, and for
    the other formats it is no file and [makedirs] has been called with it,
    and has returned, exactly when it was no directory yet. *)
Theorem main_options_are_valid argv o made :
  main_options int_of_string float_of_string isfile isdir makedirs argv = Done (o, made) ->
  0 < nframes o /\ -1 <= loop o /\ float_gt_0 (duration o) = true /\
  original_path o <> ""%string /\ final_path o <> ""%string /\
  output_path o <> ""%string /\
  (format o = GIF -> isdir (output_path o) = false /\ made = None) /\
  (format o <> GIF ->
     isfile (output_path o) = false /\
     made = if isdir (output_path o) then None else Some (output_path o)).
Proof.
  unfold main_options.
  destruct argv as [|program argv]; [discriminate|]. intros Hrun.
  inv_bind Hrun. rename a into o1.
  apply (parse_options_checked (length argv)) in Ha as (Hn & Hl & Hd);
    [|lia|unfold checked; simpl; repeat split; try lia; reflexivity].
  destruct (String.eqb_spec (original_path o1) "") as [|Horig]; [discriminate|].
  destruct (String.eqb_spec (final_path o1) "") as [|Hfinal]; [discriminate|].
  simpl in Hrun.
  set (out := if String.eqb (output_path o1) "" then _ else _) in Hrun.
  assert (Hout : out <> ""%string).
  { unfold out. destruct (String.eqb_spec (output_path o1) "") as [|Hne]; [|exact Hne].
    destruct (Format_eqb (format o1) GIF); discriminate. }
  assert (Hgif : Format_eqb (format o1) GIF = true <-> format o1 = GIF)
    by (destruct (format o1); simpl; split; congruence).
  destruct (Format_eqb (format o1) GIF) eqn:Ef;
    destruct (isfile out) eqn:Efile; destruct (isdir out) eqn:Edir;
    simpl in Hrun; try discriminate;
    try (destruct (makedirs out); [discriminate|]);
    injection Hrun as <- <-; simpl;
    rewrite ?Efile, ?Edir;
    (repeat (split; [assumption|]));
    (split; [intros Hf; try (apply Hgif in Hf; discriminate); auto
            |intros Hf; try (exfalso; apply Hf; now apply Hgif); auto]).
Qed.

Lemma prefix_cons a p arg :
  String.prefix (String a p) arg = true ->
  exists rest, arg = String a rest /\ String.prefix p rest = true.
Proof.
  destruct arg as [|c rest]; simpl; [discriminate|].
  destruct (Ascii.ascii_dec a c) as [<-|]; [eauto|discriminate].
Qed.

Lemma prefix_differs2 a b c p q arg :
  String.prefix (String a (String b p)) arg = true -> b <> c ->
  String.prefix (String a (String c q)) arg = false.
Proof.
  intros H Hbc. apply prefix_cons in H as (r1 & -> & H).
  apply prefix_cons in H as (r2 & -> & _). simpl.
  destruct (Ascii.ascii_dec a a); [|reflexivity].
  destruct (Ascii.ascii_dec c b); [congruence|reflexivity].
Qed.

Lemma eqb_differs2 a b c p q arg :
  String.prefix (String a (String b p)) arg = true -> b <> c ->
  String.eqb arg (String a (String c q)) = false.
Proof.
  intros H Hbc. apply prefix_cons in H as (r1 & -> & H).
  apply prefix_cons in H as (r2 & -> & _). simpl.
  destruct (Ascii.eqb a a); [|reflexivity].
  destruct (Ascii.eqb_spec b c); [contradiction|reflexivity].
Qed.

Lemma prefix_differs3 a b c d p q arg :
  String.prefix (String a (String b (String c p))) arg = true -> c <> d ->
  String.prefix (String a (String b (String d q))) arg = false.
Proof.
  intros H Hcd. apply prefix_cons in H as (r1 & -> & H). simpl.
  destruct (Ascii.ascii_dec a a); [|reflexivity].
  now apply (prefix_differs2 b c d p q).
Qed.

Lemma checked_int_rejected ok s :
  rejected_int int_of_string ok s ->
  checked_int int_of_string ok s = Raised (SystemExit 1).
Proof.
  unfold rejected_int, checked_int. destruct (int_of_string s); [|reflexivity].
  now intros ->.
Qed.

Lemma checked_float_rejected s :
  rejected_float float_of_string s ->
  checked_float float_of_string s = Raised (SystemExit 1).
Proof.
  unfold rejected_float, checked_float. destruct (float_of_string s); [|reflexivity].
  now intros ->.
Qed.

(** An option with a bad number ends the loop with status 1 when the loop
    comes to it. *)
Lemma bad_number_exits arg argv o :
  bad_number int_of_string float_of_string arg ->
  parse (arg :: argv) o = Raised (SystemExit 1).
Proof.
  intros [[H Hbad]|[[H Hbad]|[[H Hbad]|[[H Hbad]|[H Hbad]]]]];
    cbn [parse_options];
    rewrite (eqb_differs2 _ _ _ _ _ _ H) by discriminate;
    repeat (rewrite (prefix_differs2 _ _ _ _ _ _ H) by discriminate);
    repeat (rewrite (prefix_differs3 _ _ _ _ _ _ _ H) by discriminate);
    rewrite H;
    first [rewrite (checked_int_rejected _ _ Hbad)
          |rewrite (checked_float_rejected _ Hbad)];
    reflexivity.
Qed.

(** Arguments that the loop has got through leave the rest to be read with
    the options set so far. *)
Lemma parse_options_app n : forall pre o o' rest,
  (length pre <= n)%nat ->
  parse pre o = Done o' -> parse (pre ++ rest) o = parse rest o'.
Proof.
  induction n as [|n IH]; intros pre o o' rest Hlen Hrun.
  { destruct pre; [|simpl in Hlen; lia]. now injection Hrun as <-. }
  destruct pre as [|arg pre]; [now injection Hrun as <-|].
  simpl in Hlen. revert Hrun. simpl.
  destruct (String.eqb arg "-o").
  { destruct pre as [|path pre]; [discriminate|]. simpl in Hlen |- *.
    apply IH. lia. }
  repeat match goal with
  | |- (if String.prefix ?p arg then _ else _) = _ -> _ =>
      destruct (String.prefix p arg)
  | |- (?m ≫= _) = Done _ -> _ =>
      destruct m; simpl; [apply IH; lia|discriminate..]
  end.
  destruct (String.eqb arg "--gif"); [apply IH; lia|].
  destruct (String.prefix "-f" arg); [apply IH; lia|].
  destruct (String.eqb arg "-h" || String.eqb arg "--help"); [discriminate|].
  destruct (negb _); apply IH; lia.
Qed.

(** X11.  Lines 165-253 fail in three ways only: by [exit(1)], by the
    [exit(0)] of [help], which needs [-h] or [--help] among the arguments, or
    with the exception that [os.makedirs] raises.  An option [-n], [-d],
    [--duration=], [--loop=] or [-l] whose number [int] or [float] does not
    read, or that fails the assertion of its branch, ends the run with
    status 1 when the arguments before it are read without failure: the
    [ValueError] or [AssertionError] does not escape. *)
Theorem main_options_exit_status program args :
  (forall e,
     main_options int_of_string float_of_string isfile isdir makedirs (program :: args)
     = Raised e ->
     e = SystemExit 1 \/
     (e = SystemExit 0 /\ (In "-h"%string args \/ In "--help"%string args)) \/
     (exists path, makedirs path = Some e)) /\
  (forall pre arg post o,
     args = pre ++ arg :: post ->
     parse_options int_of_string float_of_string pre
       (Options "" "" "" DEFAULT_NFRAMES DEFAULT_DURATION DEFAULT_FORMAT 0) = Done o ->
     bad_number int_of_string float_of_string arg ->
     main_options int_of_string float_of_string isfile isdir makedirs (program :: args)
     = Raised (SystemExit 1)).
Proof.
  split.
  - unfold main_options. intros e Hrun.
    destruct (parse args _) as [o| |] eqn:Hparse; simpl in Hrun; [| |discriminate].
    + repeat match type of Hrun with
      | (if ?c then _ else _) = _ => destruct c
      end; try (left; congruence); try discriminate.
      destruct (makedirs _) as [e'|] eqn:Hmk; [|discriminate].
      injection Hrun as ->. right. right. eauto.
    + injection Hrun as ->.
      destruct (parse_options_exits (length args) args _ e (le_n _) Hparse)
        as [?|?]; auto.
  - intros pre arg post o -> Hpre Hbad. unfold main_options.
    rewrite (parse_options_app (length pre) pre _ o (arg :: post) (le_n _) Hpre).
    now rewrite (bad_number_exits arg post o Hbad).
Qed.

(** An argument with no dash in front is none of the options. *)
Lemma plain_is_positional arg :
  plain arg ->
  String.eqb arg "-o" = false /\ String.prefix "-n" arg = false /\
  String.prefix "-d" arg = false /\ String.prefix "--duration=" arg = false /\
  String.prefix "--loop=" arg = false /\ String.prefix "-l" arg = false /\
  String.eqb arg "--gif" = false /\ String.prefix "-f" arg = false /\
  String.eqb arg "-h" = false /\ String.eqb arg "--help" = false.
Proof.
  intros [Hne Hdash]. destruct arg as [|c s]; [contradiction|].
  cbn [String.eqb String.prefix] in Hdash |- *. revert Hdash.
  destruct (Ascii.ascii_dec _ c) as [Heq|Hc]; [intros Hdash; destruct s; discriminate Hdash|].
  intros _.
  repeat match goal with
  | |- context [Ascii.eqb c ?x] =>
      destruct (Ascii.eqb_spec c x) as [E|_]; [exfalso; apply Hc; now rewrite E|]
  end.
  repeat split.
Qed.

Lemma parse_plain args : forall o,
  Forall plain args -> original_path o <> ""%string ->
  parse args o
  = Done (Options (original_path o) (default (final_path o) (last args))
            (output_path o) (nframes o) (duration o) (format o) (loop o)).
Proof.
  induction args as [|arg args IH]; intros o Hall Horig.
  - now destruct o.
  - apply Forall_cons in Hall as [Harg Hall].
    destruct (plain_is_positional arg Harg)
      as (H1 & H2 & H3 & H4 & H5 & H6 & H7 & H8 & H9 & H10).
    cbn [parse_options].
    rewrite H1, H2, H3, H4, H5, H6, H7, H8, H9, H10.
    destruct (String.eqb_spec (original_path o) "") as [|_]; [contradiction|].
    cbn [orb negb]. rewrite IH by assumption. cbn [original_path final_path
      output_path nframes duration format loop].
    do 2 f_equal. destruct args as [|arg' args]; [reflexivity|].
    rewrite last_cons_cons.
    destruct (last (arg' :: args)) eqn:E; [reflexivity|].
    now apply last_None in E.
Qed.

(** X12.  When no argument starts with a dash or is empty, the first
    argument is the path of the original image and the last one the path
    of the final image; the arguments between them are dropped without a
    message.  The other options have their defaults, and fewer than two
    arguments end the run with status 1. *)
Theorem main_options_positional program args :
  Forall plain args -> isdir "res.gif" = false ->
  main_options int_of_string float_of_string isfile isdir makedirs (program :: args)
  = match args with
    | first :: _ :: _ =>
        Done (Options first (default ""%string (last args)) "res.gif"
                DEFAULT_NFRAMES DEFAULT_DURATION DEFAULT_FORMAT 0, None)
    | _ => Raised (SystemExit 1)
    end.
Proof.
  intros Hall Hdir. unfold main_options.
  destruct args as [|first rest]; [reflexivity|].
  apply Forall_cons in Hall as [Hfirst Hall].
  destruct (plain_is_positional first Hfirst)
    as (H1 & H2 & H3 & H4 & H5 & H6 & H7 & H8 & H9 & H10).
  cbn [parse_options].
  rewrite H1, H2, H3, H4, H5, H6, H7, H8, H9, H10.
  cbn [original_path orb negb String.eqb].
  destruct Hfirst as [Hne _].
  rewrite parse_plain by assumption.
  rewrite (bind_Done_eq _ _ _ eq_refl).
  cbn [original_path final_path output_path nframes duration format loop].
  destruct (String.eqb_spec first "") as [|_]; [contradiction|].
  destruct rest as [|second rest]; [reflexivity|].
  apply Forall_cons in Hall as [Hsecond Hall].
  assert (Hlast : default ""%string (last (second :: rest)) <> ""%string).
  { assert (Hin : Forall plain (second :: rest)) by now constructor.
    destruct (last (second :: rest)) as [x|] eqn:E.
    - apply last_Some_elem_of in E. rewrite Forall_forall in Hin.
      exact (proj1 (Hin x E)).
    - now apply last_None in E. }
  rewrite last_cons_cons.
  destruct (String.eqb_spec (default ""%string (last (second :: rest))) "")
    as [|_]; [contradiction|].
  cbn [orb String.eqb DEFAULT_FORMAT Format_eqb]. rewrite Hdir. simpl.
  destruct (isfile "res.gif"); reflexivity.
Qed.

End CommandLineFacts.

Lemma main_options_are_valid_witness :
  exists o made,
    main_options decimal decimal_float no_path no_path makes_dirs
      ["morpher"; "a.png"; "-n12"; "b.png"; "-fpng"; "-d3"; "-o"; "out"]%string
    = Done (o, made) /\
    0 < nframes o /\ -1 <= loop o /\ float_gt_0 (duration o) = true /\
    original_path o <> ""%string /\ final_path o <> ""%string /\
    output_path o <> ""%string /\
    (format o = GIF -> no_path (output_path o) = false /\ made = None) /\
    (format o <> GIF ->
       no_path (output_path o) = false /\
       made = if no_path (output_path o) then None else Some (output_path o)).
Proof.
  eexists _, _. split; [vm_compute; reflexivity|].
  apply (main_options_are_valid decimal decimal_float no_path no_path makes_dirs
           ["morpher"; "a.png"; "-n12"; "b.png"; "-fpng"; "-d3"; "-o"; "out"]%string).
  vm_compute. reflexivity.
Defined.

Lemma main_options_exit_status_witness :
  (exists e,
     main_options decimal decimal_float no_path no_path read_only
       ["morpher"; "a.png"; "b.png"; "-fpng"]%string = Raised e /\
     (e = SystemExit 1 \/
      (e = SystemExit 0 /\
       (In "-h"%string ["a.png"; "b.png"; "-fpng"]%string \/
        In "--help"%string ["a.png"; "b.png"; "-fpng"]%string)) \/
      (exists path, read_only path = Some e))) /\
  main_options decimal decimal_float no_path no_path makes_dirs
    ["morpher"; "a.png"; "-n0"; "-h"]%string = Raised (SystemExit 1).
Proof.
  split.
  - eexists. split; [vm_compute; reflexivity|].
    apply (proj1 (main_options_exit_status decimal decimal_float no_path no_path
                    read_only "morpher"%string ["a.png"; "b.png"; "-fpng"]%string)).
    vm_compute. reflexivity.
  - apply (proj2 (main_options_exit_status decimal decimal_float no_path no_path
                    makes_dirs "morpher"%string ["a.png"; "-n0"; "-h"]%string)
             ["a.png"]%string "-n0"%string ["-h"]%string
             (Options "a.png" "" "" DEFAULT_NFRAMES DEFAULT_DURATION DEFAULT_FORMAT 0)).
    + reflexivity.
    + vm_compute. reflexivity.
    + left. split; vm_compute; reflexivity.
Defined.

Lemma main_options_positional_witness :
  main_options decimal decimal_float no_path no_path makes_dirs
    ["morpher"; "a.png"; "b.png"; "c.png"]%string
  = Done (Options "a.png" "c.png" "res.gif"
            DEFAULT_NFRAMES DEFAULT_DURATION DEFAULT_FORMAT 0, None).
Proof.
  apply (main_options_positional decimal decimal_float no_path no_path makes_dirs
           "morpher"%string ["a.png"; "b.png"; "c.png"]%string).
  - repeat constructor; discriminate.
  - reflexivity.
Defined.
